(** * IPAddr.h: unified IPv4/IPv6 addresses and prefixes

    A shallow embedding of [class IPAddr] and [class IPPrefix] of
    [src/IPAddr.h], and the properties the design document states about
    them.

    Conventions.
    - A [uint8_t] is a [Z] in [0, 256); [uint8_t s6_addr[16]] is a
      [list Z] of length 16 (predicate [IPAddr.wf]).
    - [a.s6_addr[i]] is [nth i (s6_addr a) 0].
    - Member functions that mutate [*this] return the new object.
    - libc's [memcmp], [memcpy] and [htonl] are modelled below; [htonl]
      and the [uint32_t*] casts depend on the byte order of the host,
      which is a parameter of the functions that use them. *)

From Stdlib Require Import ZArith List Bool Lia String Ascii.
Import ListNotations.

Local Open Scope Z_scope.

(** ** C library *)

(** [memcmp(s1, s2, n)]: lexicographic comparison of the first [n] bytes
    as unsigned chars.  Only the sign of the result is specified by C;
    the model returns -1, 0 or 1. *)
Fixpoint memcmp (s1 s2 : list Z) (n : nat) : Z :=
  match n with
  | O => 0
  | S n' =>
      let c1 := hd 0 s1 in
      let c2 := hd 0 s2 in
      if c1 <? c2 then -1
      else if c2 <? c1 then 1
      else memcmp (tl s1) (tl s2) n'
  end.

(** [memcpy(dst + off, src, n)] on byte arrays. *)
Definition memcpy (dst : list Z) (off : nat) (src : list Z) (n : nat) : list Z :=
  firstn off dst ++ firstn n src ++ skipn (off + n) dst.

(** [memset(dst, c, n)] from the start of the array. *)
Definition memset (dst : list Z) (c : Z) (n : nat) : list Z :=
  repeat c n ++ skipn n dst.

Inductive Endianness := LittleEndian | BigEndian.

(** [*(uint32_t* ) &m[off]]: the 32-bit word the host reads at byte
    offset [off]. *)
Definition load32 (host : Endianness) (m : list Z) (off : nat) : Z :=
  let b0 := nth off m 0 in
  let b1 := nth (off + 1) m 0 in
  let b2 := nth (off + 2) m 0 in
  let b3 := nth (off + 3) m 0 in
  match host with
  | LittleEndian => b0 + b1 * 2 ^ 8 + b2 * 2 ^ 16 + b3 * 2 ^ 24
  | BigEndian => b3 + b2 * 2 ^ 8 + b1 * 2 ^ 16 + b0 * 2 ^ 24
  end.

(** The four bytes the host writes for the 32-bit word [w], in memory
    order. *)
Definition word_bytes (host : Endianness) (w : Z) : list Z :=
  let x0 := w mod 2 ^ 8 in
  let x1 := (w / 2 ^ 8) mod 2 ^ 8 in
  let x2 := (w / 2 ^ 16) mod 2 ^ 8 in
  let x3 := (w / 2 ^ 24) mod 2 ^ 8 in
  match host with
  | LittleEndian => [x0; x1; x2; x3]
  | BigEndian => [x3; x2; x1; x0]
  end.

(** [*(uint32_t* ) &m[off] = w]. *)
Definition store32 (host : Endianness) (m : list Z) (off : nat) (w : Z) : list Z :=
  firstn off m ++ word_bytes host w ++ skipn (off + 4) m.

Definition bswap32 (w : Z) : Z :=
  (w mod 2 ^ 8) * 2 ^ 24 + ((w / 2 ^ 8) mod 2 ^ 8) * 2 ^ 16
  + ((w / 2 ^ 16) mod 2 ^ 8) * 2 ^ 8 + (w / 2 ^ 24) mod 2 ^ 8.

(** [htonl]: host to network (big-endian) order. *)
Definition htonl (host : Endianness) (w : Z) : Z :=
  match host with
  | LittleEndian => bswap32 w
  | BigEndian => w
  end.

(** The byte array in which every aligned group of four bytes is
    reversed: what byte-swapping each 32-bit word does to memory. *)
Fixpoint swap_words (l : list Z) : list Z :=
  match l with
  | b0 :: b1 :: b2 :: b3 :: r => b3 :: b2 :: b1 :: b0 :: swap_words r
  | _ => l
  end.

(** ** Text

    [IPAddr::AsString] and [IPAddr::Init] are declared in IPAddr.h and
    defined outside src/.  The formatter and the parser of this section
    are modelled from the design document (sections 4.1 and 4.3). *)

(** Modelled from the spec: part of the parser, which is defined outside
    src/.  Does the character [c] occur in [s]? *)
Fixpoint contains (c : ascii) (s : string) : bool :=
  match s with
  | EmptyString => false
  | String a s' => Ascii.eqb a c || contains c s'
  end.

(** Modelled from the spec: part of the parser, which is defined outside
    src/.  The fields of [s] between occurrences of the separator [sep];
    a text without separator is one field, and so is the empty text. *)
Fixpoint split_on (sep : ascii) (s : string) : list string :=
  match s with
  | EmptyString => [EmptyString]
  | String a s' =>
      if Ascii.eqb a sep then EmptyString :: split_on sep s'
      else match split_on sep s' with
           | f :: fs => String a f :: fs
           | [] => [String a EmptyString]
           end
  end.

Definition is_empty (s : string) : bool :=
  match s with EmptyString => true | String _ _ => false end.

(** Modelled from the spec: part of the formatter, which is defined
    outside src/.  The character of a digit [0 <= d < 16], lowercase. *)
Definition digit_char (d : Z) : ascii :=
  ascii_of_nat (Z.to_nat (if d <? 10 then 48 + d else 87 + d)).

(** Modelled from the spec: part of the parser, which is defined outside
    src/.  The value of a decimal digit. *)
Definition dec_value (c : ascii) : option Z :=
  let n := Z.of_nat (nat_of_ascii c) in
  if (48 <=? n) && (n <=? 57) then Some (n - 48) else None.

(** Modelled from the spec: part of the parser, which is defined outside
    src/.  The value of a hexadecimal digit, of either case. *)
Definition hex_value (c : ascii) : option Z :=
  let n := Z.of_nat (nat_of_ascii c) in
  if (48 <=? n) && (n <=? 57) then Some (n - 48)
  else if (97 <=? n) && (n <=? 102) then Some (n - 87)
  else if (65 <=? n) && (n <=? 70) then Some (n - 55)
  else None.

(** Modelled from the spec: part of the parser, which is defined outside
    src/.  The number written by the digits of [s] in base [base], most
    significant digit first, continuing from [acc]. *)
Fixpoint parse_digits (value : ascii -> option Z) (base acc : Z) (s : string)
  : option Z :=
  match s with
  | EmptyString => Some acc
  | String c s' =>
      match value c with
      | Some d => parse_digits value base (acc * base + d) s'
      | None => None
      end
  end.

(** Modelled from the spec: the two kinds of [ParseError], a syntax
    failure (wrong shape) or a range failure (value out of range). *)
Inductive ErrorKind := Syntax | Range.

Inductive result (A : Type) :=
| Ok (x : A)
| Err (kind : ErrorKind).
Arguments Ok {A} x.
Arguments Err {A} kind.

Definition bind {A B : Type} (r : result A) (k : A -> result B) : result B :=
  match r with
  | Ok x => k x
  | Err e => Err e
  end.

Notation "x <- r ;; k" := (bind r (fun x => k))
  (at level 61, r at next level, right associativity).

(** Modelled from the spec: the formatter is defined outside src/.  An
    IPv4 octet is written in decimal. *)
Definition dec_octet (b : Z) : string :=
  if b <? 10 then String (digit_char b) EmptyString
  else if b <? 100 then
    String (digit_char (b / 10))
      (String (digit_char (b mod 10)) EmptyString)
  else
    String (digit_char (b / 100))
      (String (digit_char (b / 10 mod 10))
         (String (digit_char (b mod 10)) EmptyString)).

(** Modelled from the spec: the formatter is defined outside src/.  A
    16-bit group is written in lowercase hexadecimal, without leading
    zeros (scenario 4 of the design document prints [::1]). *)
Definition hex_group (g : Z) : string :=
  if g <? 16 then String (digit_char g) EmptyString
  else if g <? 256 then
    String (digit_char (g / 16))
      (String (digit_char (g mod 16)) EmptyString)
  else if g <? 4096 then
    String (digit_char (g / 256))
      (String (digit_char (g / 16 mod 16))
         (String (digit_char (g mod 16)) EmptyString))
  else
    String (digit_char (g / 4096))
      (String (digit_char (g / 256 mod 16))
         (String (digit_char (g / 16 mod 16))
            (String (digit_char (g mod 16)) EmptyString))).

(** Modelled from the spec: the formatter is defined outside src/.  An
    IPv4 address is written as four decimal octets separated by dots. *)
Definition format_v4 (octets : list Z) : string :=
  String.concat "." (map dec_octet octets).

(** Modelled from the spec: part of the formatter, which is defined
    outside src/.  The eight 16-bit groups of sixteen bytes, in network
    order. *)
Fixpoint groups_of_bytes (l : list Z) : list Z :=
  match l with
  | hi :: lo :: r => (hi * 256 + lo) :: groups_of_bytes r
  | _ => []
  end.

Definition bytes_of_groups (gs : list Z) : list Z :=
  flat_map (fun g => [g / 256; g mod 256]) gs.

(** Modelled from the spec: part of the formatter, which is defined
    outside src/.  The number of zero groups at the head of [gs]. *)
Fixpoint zero_run (gs : list Z) : nat :=
  match gs with
  | g :: r => if g =? 0 then S (zero_run r) else O
  | [] => O
  end.

(** Modelled from the spec: part of the formatter, which is defined
    outside src/.  The longest run of consecutive all-zero groups, as
    (start, length); if several runs tie for longest, the
    leftmost wins.  Positions are counted from [i]. *)
Fixpoint longest_zero_run (i : nat) (gs : list Z) : nat * nat :=
  match gs with
  | [] => (i, O)
  | _ :: r =>
      let here := zero_run gs in
      let (s, n) := longest_zero_run (S i) r in
      if (n <=? here)%nat then (i, here) else (s, n)
  end.

(** Modelled from the spec: the formatter is defined outside src/.  An
    IPv6 address is written as eight colon-separated lowercase hex
    groups; the longest run of two or more zero groups is replaced by
    [::], at most once. *)
Definition format_v6 (gs : list Z) : string :=
  let (s, n) := longest_zero_run 0 gs in
  if (2 <=? n)%nat then
    (String.concat ":" (map hex_group (firstn s gs)) ++ "::"
     ++ String.concat ":" (map hex_group (skipn (s + n) gs)))%string
  else String.concat ":" (map hex_group gs).

(** Modelled from the spec: the parser is defined outside src/.  A
    decimal octet; a token that is not a
    non-empty run of digits is a syntax failure, a value above 255 a
    range failure. *)
Definition parse_octet (tok : string) : result Z :=
  if is_empty tok then Err Syntax
  else match parse_digits dec_value 10 0 tok with
       | None => Err Syntax
       | Some v => if v <=? 255 then Ok v else Err Range
       end.

(** Modelled from the spec: the parser is defined outside src/.  A
    hexadecimal group; a token that is not a
    non-empty run of hex digits is a syntax failure, a value above
    [0xffff] a range failure. *)
Definition parse_group (tok : string) : result Z :=
  if is_empty tok then Err Syntax
  else match parse_digits hex_value 16 0 tok with
       | None => Err Syntax
       | Some v => if v <=? 65535 then Ok v else Err Range
       end.

(** Modelled from the spec: the parser is defined outside src/.
    Dotted-decimal text has exactly four octets; another token count is a
    syntax failure. *)
Definition parse_v4 (s : string) : result (list Z) :=
  match split_on "." s with
  | [t0; t1; t2; t3] =>
      o0 <- parse_octet t0 ;; o1 <- parse_octet t1 ;;
      o2 <- parse_octet t2 ;; o3 <- parse_octet t3 ;;
      Ok [o0; o1; o2; o3]
  | _ => Err Syntax
  end.

(** Modelled from the spec: part of the parser, which is defined outside
    src/.  A text that starts with [::] has two empty fields in front;
    the first is dropped, so that the [::] is a single empty field.  A
    lone colon in front is a syntax failure. *)
Definition strip_leading (fs : list string) : result (list string) :=
  match fs with
  | f0 :: r =>
      if is_empty f0 then
        match r with
        | f1 :: _ => if is_empty f1 then Ok r else Err Syntax
        | [] => Err Syntax
        end
      else Ok fs
  | [] => Ok fs
  end.

(** Modelled from the spec: part of the parser, which is defined outside
    src/.  The same at the end of the text. *)
Definition strip_trailing (fs : list string) : result (list string) :=
  r <- strip_leading (rev fs) ;; Ok (rev r).

(** Modelled from the spec: the parser is defined outside src/.  The
    fields of colon-hex text as groups;
    [None] stands for the [::], and a last field in dotted-decimal form
    is an embedded IPv4 quad, which gives two groups. *)
Fixpoint parse_fields (fs : list string) : result (list (option Z)) :=
  match fs with
  | [] => Ok []
  | f :: r =>
      if is_empty f then
        items <- parse_fields r ;; Ok (None :: items)
      else if contains "." f then
        match r with
        | [] =>
            q <- parse_v4 f ;;
            Ok (map Some (groups_of_bytes q))
        | _ :: _ => Err Syntax
        end
      else
        g <- parse_group f ;;
        items <- parse_fields r ;; Ok (Some g :: items)
  end.

Definition is_group (item : option Z) : bool :=
  match item with Some _ => true | None => false end.

(** Modelled from the spec: the parser is defined outside src/.  Without
    [::] there must be exactly eight groups; one [::] stands for the
    zero groups that are missing (at least one); a second [::] is a
    syntax failure. *)
Definition expand (items : list (option Z)) : result (list Z) :=
  let given := List.length (filter is_group items) in
  let gaps := (List.length items - given)%nat in
  match gaps with
  | O => if (given =? 8)%nat
         then Ok (flat_map (fun it => match it with
                                      | Some g => [g]
                                      | None => []
                                      end) items)
         else Err Syntax
  | S O => if (given <=? 7)%nat
           then Ok (flat_map (fun it => match it with
                                        | Some g => [g]
                                        | None => repeat 0 (8 - given)
                                        end) items)
           else Err Syntax
  | _ => Err Syntax
  end.

(** Modelled from the spec: the parser is defined outside src/.
    Colon-hex text, with [::] compression and an optional trailing
    dotted-decimal quad, read as eight groups. *)
Definition parse_v6 (s : string) : result (list Z) :=
  fs <- strip_leading (split_on ":" s) ;;
  fs <- strip_trailing fs ;;
  items <- parse_fields fs ;;
  expand items.

(** *** Auxiliary definitions of the round-trip proof *)

(** A list of fields in which an empty list is written as one empty
    field: the fields on either side of [::]. *)
Definition edge (fs : list string) : list string :=
  match fs with
  | [] => [EmptyString]
  | _ :: _ => fs
  end.

(** [P] holds of the [n] integers from [z]. *)
Fixpoint check_from (P : Z -> bool) (n : nat) (z : Z) : bool :=
  match n with
  | O => true
  | S n' => P z && check_from P n' (z + 1)
  end.

(** The integer that the bytes [l] write in network order, most
    significant byte first. *)
Fixpoint be_value (l : list Z) : Z :=
  match l with
  | [] => 0
  | b :: r => b * 256 ^ Z.of_nat (List.length r) + be_value r
  end.

(** ** netinet/in.h *)

Definition is_uint8 (b : Z) : bool := (0 <=? b) && (b <? 256).

Record in6_addr := mk_in6_addr { s6_addr : list Z }.

(** ** class IPAddr *)

Module IPAddr.

Inductive Family := IPv4 | IPv6.
Inductive ByteOrder := Host | Network.

Record t := mk { in6 : in6_addr }.

Definition bytes (a : t) : list Z := s6_addr (in6 a).
Definition of_bytes (l : list Z) : t := mk (mk_in6_addr l).

(** Representation invariant of [uint8_t s6_addr[16]]. *)
Definition wf (a : t) : bool :=
  (List.length (bytes a) =? 16)%nat && forallb is_uint8 (bytes a).

(** Modelled from the spec: the definition of the static member
    [v4_mapped_prefix] is not in IPAddr.h; the design document gives it
    as the fixed 96-bit prefix [0:0:0:0:0:ffff]. *)
Definition v4_mapped_prefix : list Z :=
  [0; 0; 0; 0; 0; 0; 0; 0; 0; 0; 255; 255].

(** [IPAddr()]: [memset] over the whole array, whose prior content is
    indeterminate (modelled as zeros, here and in the constructors below,
    which overwrite all 16 bytes as well). *)
Definition ctor_default : t :=
  of_bytes (memset (repeat 0 16%nat) 0 16).

(** [IPAddr(const in4_addr&)]; [in4] is the 4 bytes of [s_addr]. *)
Definition ctor_in4 (in4 : list Z) : t :=
  let m := memcpy (repeat 0 16%nat) 0 v4_mapped_prefix 12 in
  of_bytes (memcpy m 12 in4 4).

(** [IPAddr(const in6_addr&)] *)
Definition ctor_in6 (arg_in6 : in6_addr) : t := mk arg_in6.

(** [IPAddr(Family, const uint32_t*, ByteOrder)] *)
Definition ctor_raw (host : Endianness)
    (family : Family) (raw : list Z) (order : ByteOrder) : t :=
  let uninit := repeat 0 16%nat in
  match family with
  | IPv4 =>
      let m := memcpy uninit 0 v4_mapped_prefix 12 in
      let m := memcpy m 12 raw 4 in
      match order with
      | Host => of_bytes (store32 host m 12 (htonl host (load32 host m 12)))
      | Network => of_bytes m
      end
  | IPv6 =>
      let m := memcpy uninit 0 raw 16 in
      match order with
      | Host =>
          of_bytes
            (fold_left
               (fun m i => store32 host m (i * 4)
                             (htonl host (load32 host m (i * 4))))
               [0; 1; 2; 3]%nat m)
      | Network => of_bytes m
      end
  end.

(** [Family family() const] *)
Definition family (a : t) : Family :=
  if memcmp (bytes a) v4_mapped_prefix 12 =? 0 then IPv4 else IPv6.

(** The test [family() == IPv4]. *)
Definition is_IPv4 (a : t) : bool :=
  match family a with IPv4 => true | IPv6 => false end.

(** [bool IsMulticast() const] *)
Definition IsMulticast (a : t) : bool :=
  if is_IPv4 a then nth 12 (bytes a) 0 =? 224
  else nth 0 (bytes a) 0 =? 255.

(** [bool IsBroadcast() const] *)
Definition IsBroadcast (a : t) : bool :=
  if is_IPv4 a then
    (nth 12 (bytes a) 0 =? 255) && (nth 13 (bytes a) 0 =? 255)
    && (nth 14 (bytes a) 0 =? 255) && (nth 15 (bytes a) 0 =? 255)
  else false.

(** [bool IsLoopback() const] *)
Definition IsLoopback (a : t) : bool :=
  if is_IPv4 a then nth 12 (bytes a) 0 =? 127
  else
    (nth 0 (bytes a) 0 =? 0) && (nth 1 (bytes a) 0 =? 0)
    && (nth 2 (bytes a) 0 =? 0) && (nth 3 (bytes a) 0 =? 0)
    && (nth 4 (bytes a) 0 =? 0) && (nth 5 (bytes a) 0 =? 0)
    && (nth 6 (bytes a) 0 =? 0) && (nth 7 (bytes a) 0 =? 0)
    && (nth 8 (bytes a) 0 =? 0) && (nth 9 (bytes a) 0 =? 0)
    && (nth 10 (bytes a) 0 =? 0) && (nth 11 (bytes a) 0 =? 0)
    && (nth 12 (bytes a) 0 =? 0) && (nth 13 (bytes a) 0 =? 0)
    && (nth 14 (bytes a) 0 =? 0) && (nth 15 (bytes a) 0 =? 1).

(** [operator=] *)
Definition op_assign (this other : t) : t := mk (in6 other).

(** [operator==], [operator!=], [operator<]; [sizeof(in6_addr)] is 16. *)
Definition op_eq (addr1 addr2 : t) : bool :=
  memcmp (bytes addr1) (bytes addr2) 16 =? 0.

Definition op_ne (addr1 addr2 : t) : bool := negb (op_eq addr1 addr2).

Definition op_lt (addr1 addr2 : t) : bool :=
  memcmp (bytes addr1) (bytes addr2) 16 <? 0.

(** Modelled from the spec: the byte-level step of [IPAddr::Mask],
    which is declared in IPAddr.h and defined outside src/.  The design
    document: full bytes beyond the boundary are zeroed outright, the
    byte straddling the boundary is masked with a bitmask.
    [keep] is the number of leading bits of the byte that are kept. *)
Definition mask_byte (keep : Z) (b : Z) : Z :=
  if keep <=? 0 then 0
  else if 8 <=? keep then b
  else Z.land b (Z.land 255 (Z.shiftl 255 (8 - keep))).

(** Modelled from the spec: [IPAddr::Mask] over the byte array; byte
    [k] keeps its first [keep - 8 * k] bits. *)
Fixpoint mask_bytes (keep : Z) (l : list Z) : list Z :=
  match l with
  | [] => []
  | b :: l' => mask_byte keep b :: mask_bytes (keep - 8) l'
  end.

(** Modelled from the spec: [IPAddr::Mask], declared in IPAddr.h and
    defined outside src/.  The design document: zero all bits after the
    first [top_bits_to_keep] bits of the 128-bit representation,
    counting from the most significant bit, regardless of family; a
    count outside 0..128 is a contract violation that fails fast
    ([None]). *)
Definition Mask (a : t) (top_bits_to_keep : Z) : option t :=
  if (0 <=? top_bits_to_keep) && (top_bits_to_keep <=? 128)
  then Some (of_bytes (mask_bytes top_bits_to_keep (bytes a)))
  else None.

(** Bit [i] of a byte array, bit 0 being the most significant bit of
    the first byte. *)
Definition bytes_bit (l : list Z) (i : nat) : bool :=
  Z.testbit (nth (i / 8) l 0) (7 - Z.of_nat (i mod 8)).

(** Bit [i] of the address in the numbering of its own family: of the
    embedded 32 bits for IPv4, of all 128 bits for IPv6. *)
Definition family_bit (a : t) (i : nat) : bool :=
  if is_IPv4 a then bytes_bit (bytes a) (96 + i) else bytes_bit (bytes a) i.

(** The addresses named in the properties below. *)
Definition loopback6 : list Z :=
  [0; 0; 0; 0; 0; 0; 0; 0; 0; 0; 0; 0; 0; 0; 0; 1].

Definition broadcast4 : list Z := [255; 255; 255; 255].

Definition unspecified : list Z := repeat 0 16%nat.

(** Modelled from the spec: [IPAddr::AsString] is declared in IPAddr.h
    and defined outside src/.  The design document: IPv4 addresses format
    as four decimal octets separated by dots, IPv6 addresses as
    colon-separated lowercase hex groups with the longest zero run
    compressed. *)
Definition AsString (a : t) : string :=
  if is_IPv4 a then format_v4 (skipn 12 (bytes a))
  else format_v6 (groups_of_bytes (bytes a)).

(** The outcome of parsing: an address, or a [ParseError] that names the
    kind of failure and the offending input. *)
Inductive parse_result :=
| Parsed (a : t)
| ParseError (kind : ErrorKind) (input : string).

(** Modelled from the spec: [IPAddr::Init], the parser behind the text
    constructors, is declared in IPAddr.h and defined outside src/.  The
    design document: accepts dotted-decimal IPv4 text (stored as a mapped
    address) and colon-hex IPv6 text; malformed input is a [ParseError]. *)
Definition Init (s : string) : parse_result :=
  let r := if contains ":" s
           then gs <- parse_v6 s ;; Ok (of_bytes (bytes_of_groups gs))
           else q <- parse_v4 s ;; Ok (ctor_in4 q) in
  match r with
  | Ok a => Parsed a
  | Err kind => ParseError kind s
  end.

(** Copy constructor. *)
Definition ctor_copy (other : t) : t := mk (in6 other).

(** [int GetBytes(const uint32_t* const* bytes) const]: the pointer stored
    in [*bytes], as an offset into [in6.s6_addr], and the returned number
    of 32-bit words. *)
Definition GetBytes (a : t) : nat * nat :=
  if is_IPv4 a then (12%nat, 1%nat) else (0%nat, 4%nat).

(** The bytes a caller reads through the pointer and the word count that
    [GetBytes] gave. *)
Definition words_at (a : t) (view : nat * nat) : list Z :=
  firstn (4 * snd view) (skipn (fst view) (bytes a)).

(** [void CopyIPv6(uint32_t* bytes) const]; [dst] is the caller's memory
    at [bytes]. *)
Definition CopyIPv6 (a : t) (dst : list Z) : list Z :=
  memcpy dst 0 (bytes a) 16.

End IPAddr.

(** ** class IPPrefix *)

Module IPPrefix.

(** [prefix] is stored with the non-prefix bits masked out; [length] is
    the bit length relative to the full IPv6 address (a [uint8_t]). *)
Record t := mk { prefix : IPAddr.t; length : Z }.

(** Modelled from the spec: [IPPrefix::IPPrefix(const IPAddr&, uint8_t)]
    is declared in IPAddr.h and defined outside src/.  The design
    document: convert the length to the 128-bit scale (add 96 if the
    address is IPv4), then immediately apply [Mask] to the stored
    address with that 128-bit-scale length. *)
Definition ctor_addr (addr : IPAddr.t) (len : Z) : option t :=
  let length128 := if IPAddr.is_IPv4 addr then len + 96 else len in
  match IPAddr.Mask addr length128 with
  | Some p => Some (mk p length128)
  | None => None
  end.

(** Copy constructor. *)
Definition ctor_copy (other : t) : t := mk (prefix other) (length other).

(** [const IPAddr& Prefix() const] *)
Definition Prefix (p : t) : IPAddr.t := prefix p.

(** [uint8_t Length() const]: the conditional is computed in [int] and
    converted to [uint8_t] on return. *)
Definition Length (p : t) : Z :=
  (if IPAddr.is_IPv4 (prefix p) then length p - 96 else length p) mod 256.

(** [uint8_t LengthIPv6() const] *)
Definition LengthIPv6 (p : t) : Z := length p.

(** [operator=]: two member assignments in sequence.  When [other] is
    [*this] the first assignment changes nothing, so reading
    [other.Length()] afterwards sees the same object. *)
Definition op_assign (this other : t) : t :=
  let this1 :=
    mk (IPAddr.op_assign (prefix this) (Prefix other)) (length this) in
  mk (prefix this1) (Length other).

(** [operator==] and [operator<] on prefixes. *)
Definition op_eq (net1 net2 : t) : bool :=
  IPAddr.op_eq (Prefix net1) (Prefix net2) && (Length net1 =? Length net2).

Definition op_lt (net1 net2 : t) : bool :=
  if IPAddr.op_lt (Prefix net1) (Prefix net2) then true
  else if IPAddr.op_eq (Prefix net1) (Prefix net2)
       then Length net1 <? Length net2
       else false.

(** 10.0.0.0/8, as [IPPrefix(IPAddr, 8)] builds it. *)
Definition net10 : t := mk (IPAddr.ctor_in4 [10; 0; 0; 0]) 104.

End IPPrefix.

(** * Properties *)

(** ** memcmp *)

Lemma memcmp_refl (s : list Z) (n : nat) : memcmp s s n = 0.
Proof.
  revert s; induction n as [|n IH]; intros s; simpl; [reflexivity|].
  rewrite Z.ltb_irrefl. apply IH.
Qed.

Lemma memcmp_range (s1 s2 : list Z) (n : nat) :
  memcmp s1 s2 n = -1 \/ memcmp s1 s2 n = 0 \/ memcmp s1 s2 n = 1.
Proof.
  revert s1 s2; induction n as [|n IH]; intros s1 s2; simpl; [auto|].
  destruct (hd 0 s1 <? hd 0 s2); [auto|].
  destruct (hd 0 s2 <? hd 0 s1); [auto|]. apply IH.
Qed.

Lemma nth_hd_tl (s : list Z) (i : nat) :
  nth 0 s 0 = hd 0 s /\ nth (S i) s 0 = nth i (tl s) 0.
Proof. destruct s; simpl; split; try reflexivity. destruct i; reflexivity. Qed.

(** [memcmp] is 0 exactly when the first [n] bytes agree. *)
Lemma memcmp_eq0_iff (s1 s2 : list Z) (n : nat) :
  memcmp s1 s2 n = 0 <->
  forall i, (i < n)%nat -> nth i s1 0 = nth i s2 0.
Proof.
  revert s1 s2; induction n as [|n IH]; intros s1 s2; simpl.
  - split; [intros _ i Hi; lia | reflexivity].
  - destruct (Z.ltb_spec (hd 0 s1) (hd 0 s2)) as [Hlt|Hge].
    + split; [discriminate|]. intros H. specialize (H 0%nat ltac:(lia)).
      rewrite !(proj1 (nth_hd_tl _ 0)) in H. lia.
    + destruct (Z.ltb_spec (hd 0 s2) (hd 0 s1)) as [Hgt|Hle].
      * split; [discriminate|]. intros H. specialize (H 0%nat ltac:(lia)).
        rewrite !(proj1 (nth_hd_tl _ 0)) in H. lia.
      * rewrite IH. split; intros H i Hi.
        -- destruct i as [|i].
           ++ rewrite !(proj1 (nth_hd_tl _ 0)). lia.
           ++ rewrite !(proj2 (nth_hd_tl _ i)). apply H. lia.
        -- rewrite <- !(proj2 (nth_hd_tl _ i)). apply H. lia.
Qed.

(** [memcmp] is negative exactly when the arrays first differ at a byte
    where the left one is smaller. *)
Lemma memcmp_lt0_iff (s1 s2 : list Z) (n : nat) :
  memcmp s1 s2 n < 0 <->
  exists i, (i < n)%nat /\ nth i s1 0 < nth i s2 0 /\
            forall j, (j < i)%nat -> nth j s1 0 = nth j s2 0.
Proof.
  revert s1 s2; induction n as [|n IH]; intros s1 s2; simpl.
  - split; [lia | intros (i & Hi & _); lia].
  - destruct (Z.ltb_spec (hd 0 s1) (hd 0 s2)) as [Hlt|Hge].
    + split; [intros _|lia]. exists 0%nat.
      rewrite !(proj1 (nth_hd_tl _ 0)). repeat split; [lia|lia|intros j Hj; lia].
    + destruct (Z.ltb_spec (hd 0 s2) (hd 0 s1)) as [Hgt|Hle].
      * split; [lia|]. intros (i & Hi & Hlt & Hpre). exfalso.
        destruct i as [|i].
        -- rewrite !(proj1 (nth_hd_tl _ 0)) in Hlt. lia.
        -- specialize (Hpre 0%nat ltac:(lia)).
           rewrite !(proj1 (nth_hd_tl _ 0)) in Hpre. lia.
      * rewrite IH. split.
        -- intros (i & Hi & Hlt & Hpre). exists (S i).
           rewrite !(proj2 (nth_hd_tl _ i)). repeat split; [lia|exact Hlt|].
           intros j Hj. destruct j as [|j].
           ++ rewrite !(proj1 (nth_hd_tl _ 0)). lia.
           ++ rewrite !(proj2 (nth_hd_tl _ j)). apply Hpre. lia.
        -- intros (i & Hi & Hlt & Hpre). destruct i as [|i].
           ++ rewrite !(proj1 (nth_hd_tl _ 0)) in Hlt. lia.
           ++ exists i. rewrite !(proj2 (nth_hd_tl _ i)) in Hlt.
              repeat split; [lia|exact Hlt|].
              intros j Hj. rewrite <- !(proj2 (nth_hd_tl _ j)). apply Hpre. lia.
Qed.

Lemma memcmp_antisym (s1 s2 : list Z) (n : nat) :
  memcmp s2 s1 n = - memcmp s1 s2 n.
Proof.
  revert s1 s2; induction n as [|n IH]; intros s1 s2; simpl; [reflexivity|].
  destruct (Z.ltb_spec (hd 0 s1) (hd 0 s2)), (Z.ltb_spec (hd 0 s2) (hd 0 s1));
    try lia. apply IH.
Qed.

Lemma memcmp_trans (s1 s2 s3 : list Z) (n : nat) :
  memcmp s1 s2 n < 0 -> memcmp s2 s3 n < 0 -> memcmp s1 s3 n < 0.
Proof.
  revert s1 s2 s3; induction n as [|n IH]; intros s1 s2 s3; simpl; [lia|].
  destruct (Z.ltb_spec (hd 0 s1) (hd 0 s2)), (Z.ltb_spec (hd 0 s2) (hd 0 s1)),
    (Z.ltb_spec (hd 0 s2) (hd 0 s3)), (Z.ltb_spec (hd 0 s3) (hd 0 s2)),
    (Z.ltb_spec (hd 0 s1) (hd 0 s3)), (Z.ltb_spec (hd 0 s3) (hd 0 s1));
    try lia. apply IH.
Qed.

Lemma memcmp_firstn (s1 s2 : list Z) (n : nat) :
  (n <= List.length s1)%nat -> (n <= List.length s2)%nat ->
  (memcmp s1 s2 n = 0 <-> firstn n s1 = firstn n s2).
Proof.
  revert s1 s2; induction n as [|n IH]; intros s1 s2 H1 H2.
  - simpl. tauto.
  - destruct s1 as [|x s1]; [simpl in H1; lia|].
    destruct s2 as [|y s2]; [simpl in H2; lia|].
    simpl in H1, H2. cbn [memcmp hd tl firstn].
    destruct (Z.ltb_spec x y); [split; [discriminate|intros E; injection E; lia]|].
    destruct (Z.ltb_spec y x); [split; [discriminate|intros E; injection E; lia]|].
    rewrite IH by lia. assert (x = y) by lia. subst y.
    split; [intros ->; reflexivity | intros E; injection E; auto].
Qed.

(** ** Addresses: representation *)

Lemma wf_length (a : IPAddr.t) :
  IPAddr.wf a = true -> List.length (IPAddr.bytes a) = 16%nat.
Proof.
  unfold IPAddr.wf. rewrite andb_true_iff, Nat.eqb_eq. tauto.
Qed.

Lemma wf_range (a : IPAddr.t) :
  IPAddr.wf a = true -> Forall (fun b => 0 <= b < 256) (IPAddr.bytes a).
Proof.
  unfold IPAddr.wf. rewrite andb_true_iff, forallb_forall, Forall_forall.
  intros [_ H] b Hb. specialize (H b Hb). unfold is_uint8 in H.
  rewrite andb_true_iff, Z.leb_le, Z.ltb_lt in H. exact H.
Qed.

(** An address is nothing but its bytes. *)
Lemma bytes_inj (a b : IPAddr.t) : IPAddr.bytes a = IPAddr.bytes b -> a = b.
Proof.
  destruct a as [[la]], b as [[lb]]. unfold IPAddr.bytes. simpl.
  intros ->. reflexivity.
Qed.

Lemma family_IPv4_iff (a : IPAddr.t) :
  IPAddr.wf a = true ->
  (IPAddr.family a = IPAddr.IPv4 <->
   firstn 12 (IPAddr.bytes a) = IPAddr.v4_mapped_prefix).
Proof.
  intros Hwf. apply wf_length in Hwf. unfold IPAddr.family.
  pose proof (memcmp_firstn (IPAddr.bytes a) IPAddr.v4_mapped_prefix 12) as M.
  change (firstn 12 IPAddr.v4_mapped_prefix) with IPAddr.v4_mapped_prefix in M.
  rewrite <- M by (simpl; lia).
  destruct (Z.eqb_spec (memcmp (IPAddr.bytes a) IPAddr.v4_mapped_prefix 12) 0);
    split; congruence.
Qed.

Lemma family_IPv6_iff (a : IPAddr.t) :
  IPAddr.wf a = true ->
  (IPAddr.family a = IPAddr.IPv6 <->
   firstn 12 (IPAddr.bytes a) <> IPAddr.v4_mapped_prefix).
Proof.
  intros Hwf. rewrite <- (family_IPv4_iff a Hwf).
  destruct (IPAddr.family a); split; congruence.
Qed.

Lemma is_IPv4_true (a : IPAddr.t) :
  IPAddr.is_IPv4 a = true <-> IPAddr.family a = IPAddr.IPv4.
Proof. unfold IPAddr.is_IPv4. destruct (IPAddr.family a); split; congruence. Qed.

Lemma is_IPv4_false (a : IPAddr.t) :
  IPAddr.is_IPv4 a = false <-> IPAddr.family a = IPAddr.IPv6.
Proof. unfold IPAddr.is_IPv4. destruct (IPAddr.family a); split; congruence. Qed.

Lemma op_eq_iff (a b : IPAddr.t) :
  IPAddr.wf a = true -> IPAddr.wf b = true ->
  (IPAddr.op_eq a b = true <-> a = b).
Proof.
  intros Ha Hb. apply wf_length in Ha, Hb. unfold IPAddr.op_eq.
  rewrite Z.eqb_eq, memcmp_firstn by lia.
  assert (Ea : firstn 16 (IPAddr.bytes a) = IPAddr.bytes a)
    by (rewrite <- Ha; apply firstn_all).
  assert (Eb : firstn 16 (IPAddr.bytes b) = IPAddr.bytes b)
    by (rewrite <- Hb; apply firstn_all).
  rewrite Ea, Eb.
  split; [apply bytes_inj | intros ->; reflexivity].
Qed.

Lemma op_eq_bytes (a b : IPAddr.t) :
  IPAddr.op_eq a b = true <->
  forall i, (i < 16)%nat -> nth i (IPAddr.bytes a) 0 = nth i (IPAddr.bytes b) 0.
Proof. unfold IPAddr.op_eq. rewrite Z.eqb_eq. apply memcmp_eq0_iff. Qed.

(** Splits a well-formed address into its sixteen bytes. *)
Ltac explode a H :=
  let l := fresh "l" in
  let R := fresh "R" in
  pose proof (wf_range a H) as R;
  apply wf_length in H;
  destruct a as [[l]]; unfold IPAddr.bytes in *; cbn [IPAddr.in6 s6_addr] in *;
  do 16 (destruct l as [|? l]; [discriminate H|]);
  destruct l; [clear H|discriminate H];
  repeat match goal with
         | R : Forall _ (_ :: _) |- _ =>
             let R1 := fresh "R" in
             pose proof (Forall_inv R) as R1; apply Forall_inv_tail in R;
             cbv beta in R1
         | R : Forall _ [] |- _ => clear R
         end.

(** ** C7: the family is derived from the bytes *)

(** C7. [family()] returns IPv4 exactly when the first 12 bytes equal the
    mapped-prefix constant and IPv6 otherwise; an address carries no state
    besides its 16 bytes (no stored tag), so [operator==] holds exactly
    when all 16 bytes are equal, in which case the families agree too. *)
Theorem family_derived_from_bytes (a : IPAddr.t) :
  IPAddr.wf a = true ->
  (IPAddr.family a = IPAddr.IPv4 <->
     firstn 12 (IPAddr.bytes a) = IPAddr.v4_mapped_prefix) /\
  (IPAddr.family a = IPAddr.IPv6 <->
     firstn 12 (IPAddr.bytes a) <> IPAddr.v4_mapped_prefix) /\
  (forall b, IPAddr.bytes a = IPAddr.bytes b -> a = b) /\
  (forall b, IPAddr.wf b = true ->
     (IPAddr.op_eq a b = true <->
      forall i, (i < 16)%nat ->
        nth i (IPAddr.bytes a) 0 = nth i (IPAddr.bytes b) 0) /\
     (IPAddr.op_eq a b = true <-> a = b) /\
     (IPAddr.op_eq a b = true -> IPAddr.family a = IPAddr.family b)).
Proof.
  intros Hwf. split; [apply family_IPv4_iff, Hwf|].
  split; [apply family_IPv6_iff, Hwf|].
  split; [intros b; apply bytes_inj|].
  intros b Hb. split; [apply op_eq_bytes|].
  split; [apply op_eq_iff; assumption|].
  intros H. apply op_eq_iff in H; [subst; reflexivity|assumption..].
Qed.

Lemma family_derived_from_bytes_witness :
  IPAddr.wf (IPAddr.ctor_in4 [192; 168; 1; 2]) = true /\
  (IPAddr.family (IPAddr.ctor_in4 [192; 168; 1; 2]) = IPAddr.IPv4 <->
   firstn 12 (IPAddr.bytes (IPAddr.ctor_in4 [192; 168; 1; 2]))
   = IPAddr.v4_mapped_prefix).
Proof.
  split; [reflexivity|].
  exact (proj1 (family_derived_from_bytes
                  (IPAddr.ctor_in4 [192; 168; 1; 2]) eq_refl)).
Defined.

(** ** C8, C9, C10: classification predicates *)

(** C8. [IsLoopback()] is true exactly when the address is IPv4-family with
    embedded first octet 127, or IPv6-family and equal to [::1]. *)
Theorem IsLoopback_iff (a : IPAddr.t) :
  IPAddr.wf a = true ->
  (IPAddr.IsLoopback a = true <->
   (IPAddr.family a = IPAddr.IPv4 /\ nth 12 (IPAddr.bytes a) 0 = 127) \/
   (IPAddr.family a = IPAddr.IPv6 /\ IPAddr.bytes a = IPAddr.loopback6)).
Proof.
  intros Hwf. unfold IPAddr.IsLoopback.
  destruct (IPAddr.is_IPv4 a) eqn:F.
  - apply is_IPv4_true in F. rewrite Z.eqb_eq. split.
    + intros H. left. auto.
    + intros [[_ H]|[H _]]; [exact H | congruence].
  - apply is_IPv4_false in F. explode a Hwf. cbn [nth].
    rewrite !andb_true_iff, !Z.eqb_eq. unfold IPAddr.loopback6. split.
    + intros H. right. split; [exact F|]. repeat f_equal; tauto.
    + intros [[H _]|[_ H]]; [congruence|].
      injection H as -> -> -> -> -> -> -> -> -> -> -> -> -> -> -> ->. tauto.
Qed.

Lemma IsLoopback_iff_witness :
  IPAddr.wf (IPAddr.ctor_in4 [127; 0; 0; 5]) = true /\
  IPAddr.IsLoopback (IPAddr.ctor_in4 [127; 0; 0; 5]) = true.
Proof.
  split; [reflexivity|].
  apply (proj2 (IsLoopback_iff (IPAddr.ctor_in4 [127; 0; 0; 5]) eq_refl)).
  left. split; reflexivity.
Defined.

(** C9. [IsMulticast()] is true exactly when the address is IPv4-family
    with embedded first octet equal to 224, or IPv6-family with first byte
    [0xff]. *)
Theorem IsMulticast_iff (a : IPAddr.t) :
  IPAddr.wf a = true ->
  (IPAddr.IsMulticast a = true <->
   (IPAddr.family a = IPAddr.IPv4 /\ nth 12 (IPAddr.bytes a) 0 = 224) \/
   (IPAddr.family a = IPAddr.IPv6 /\ nth 0 (IPAddr.bytes a) 0 = 255)).
Proof.
  intros _. unfold IPAddr.IsMulticast.
  destruct (IPAddr.is_IPv4 a) eqn:F; rewrite Z.eqb_eq.
  - apply is_IPv4_true in F. split.
    + intros H. left. auto.
    + intros [[_ H]|[H _]]; [exact H | congruence].
  - apply is_IPv4_false in F. split.
    + intros H. right. auto.
    + intros [[H _]|[_ H]]; [congruence | exact H].
Qed.

Lemma IsMulticast_iff_witness :
  IPAddr.wf (IPAddr.ctor_in4 [239; 1; 2; 3]) = true /\
  IPAddr.IsMulticast (IPAddr.ctor_in4 [239; 1; 2; 3]) <> true.
Proof.
  split; [reflexivity|].
  intros H.
  apply (proj1 (IsMulticast_iff (IPAddr.ctor_in4 [239; 1; 2; 3]) eq_refl)) in H.
  destruct H as [[_ H]|[H _]]; discriminate H.
Defined.

(** C10. [IsBroadcast()] is true exactly when the address is IPv4-family
    and its embedded 32 bits are all ones; it is false for every
    IPv6-family address. *)
Theorem IsBroadcast_iff (a : IPAddr.t) :
  IPAddr.wf a = true ->
  (IPAddr.IsBroadcast a = true <->
   IPAddr.family a = IPAddr.IPv4 /\ skipn 12 (IPAddr.bytes a) = IPAddr.broadcast4) /\
  (IPAddr.family a = IPAddr.IPv6 -> IPAddr.IsBroadcast a = false).
Proof.
  intros Hwf. unfold IPAddr.IsBroadcast. split.
  - destruct (IPAddr.is_IPv4 a) eqn:F.
    + apply is_IPv4_true in F. explode a Hwf. cbn [nth skipn].
      rewrite !andb_true_iff, !Z.eqb_eq. unfold IPAddr.broadcast4. split.
      * intros H. split; [exact F|]. repeat f_equal; tauto.
      * intros [_ H]. injection H as -> -> -> ->. tauto.
    + apply is_IPv4_false in F. split; [discriminate|]. intros [H _]. congruence.
  - intros F. apply is_IPv4_false in F. rewrite F. reflexivity.
Qed.

Lemma IsBroadcast_iff_witness :
  IPAddr.wf (IPAddr.ctor_in4 IPAddr.broadcast4) = true /\
  IPAddr.IsBroadcast (IPAddr.ctor_in4 IPAddr.broadcast4) = true.
Proof.
  split; [reflexivity|].
  apply (proj2 (proj1 (IsBroadcast_iff (IPAddr.ctor_in4 IPAddr.broadcast4) eq_refl))).
  split; reflexivity.
Defined.

(** ** C4: the order on addresses *)

(** C4. [operator<] and [operator==] on addresses form a strict total
    order: exactly one of [a < b], [a == b], [b < a] holds, and [<] is
    transitive.  [==] is byte-wise equality of the 16 bytes and [<] is the
    lexicographic order of the 16 bytes, first byte most significant. *)
Theorem addr_order_total (a b c : IPAddr.t) :
  ((IPAddr.op_lt a b = true /\ IPAddr.op_eq a b = false /\ IPAddr.op_lt b a = false) \/
   (IPAddr.op_lt a b = false /\ IPAddr.op_eq a b = true /\ IPAddr.op_lt b a = false) \/
   (IPAddr.op_lt a b = false /\ IPAddr.op_eq a b = false /\ IPAddr.op_lt b a = true)) /\
  (IPAddr.op_lt a b = true -> IPAddr.op_lt b c = true -> IPAddr.op_lt a c = true) /\
  (IPAddr.op_eq a b = true <->
   forall i, (i < 16)%nat -> nth i (IPAddr.bytes a) 0 = nth i (IPAddr.bytes b) 0) /\
  (IPAddr.op_lt a b = true <->
   exists i, (i < 16)%nat /\
     nth i (IPAddr.bytes a) 0 < nth i (IPAddr.bytes b) 0 /\
     forall j, (j < i)%nat -> nth j (IPAddr.bytes a) 0 = nth j (IPAddr.bytes b) 0) /\
  (IPAddr.wf a = true -> IPAddr.wf b = true ->
   (IPAddr.op_eq a b = true <-> a = b)).
Proof.
  unfold IPAddr.op_lt, IPAddr.op_eq.
  repeat split.
  - rewrite (memcmp_antisym (IPAddr.bytes a) (IPAddr.bytes b)).
    destruct (memcmp_range (IPAddr.bytes a) (IPAddr.bytes b) 16) as [E|[E|E]];
      rewrite E; simpl; auto.
  - rewrite !Z.ltb_lt. apply memcmp_trans.
  - rewrite Z.eqb_eq. apply memcmp_eq0_iff.
  - rewrite Z.eqb_eq. apply memcmp_eq0_iff.
  - rewrite Z.ltb_lt. apply memcmp_lt0_iff.
  - rewrite Z.ltb_lt. apply memcmp_lt0_iff.
  - apply op_eq_iff; assumption.
  - apply op_eq_iff; assumption.
Qed.

(** ** C1: assignment of prefixes *)

(** For a prefix over an IPv6-family address, [operator=] is a plain copy. *)
Lemma op_assign_IPv6_copy (q p : IPPrefix.t) :
  IPAddr.family (IPPrefix.prefix p) = IPAddr.IPv6 ->
  0 <= IPPrefix.length p < 256 ->
  IPPrefix.op_assign q p = p.
Proof.
  intros F R. apply is_IPv4_false in F.
  unfold IPPrefix.op_assign, IPPrefix.Length, IPPrefix.Prefix, IPAddr.op_assign.
  rewrite F. cbn [IPPrefix.prefix]. rewrite Z.mod_small by exact R.
  destruct p as [[i] l]. reflexivity.
Qed.

(** For a prefix over an IPv4-family address, [operator=] stores the
    family-relative length where the 128-bit-scale length belongs. *)
Lemma op_assign_IPv4_length (q p : IPPrefix.t) :
  IPAddr.family (IPPrefix.prefix p) = IPAddr.IPv4 ->
  IPPrefix.Prefix (IPPrefix.op_assign q p) = IPPrefix.Prefix p /\
  IPPrefix.LengthIPv6 (IPPrefix.op_assign q p)
  = (IPPrefix.LengthIPv6 p - 96) mod 256.
Proof.
  intros F. apply is_IPv4_true in F.
  unfold IPPrefix.op_assign, IPPrefix.Length, IPPrefix.LengthIPv6,
    IPPrefix.Prefix, IPAddr.op_assign.
  rewrite F. cbn [IPPrefix.prefix IPPrefix.length].
  destruct p as [[i] l]. split; reflexivity.
Qed.

(** C1. Assignment [q = p] at [p] = 10.0.0.0/8: the address is copied, but
    the stored 128-bit-scale length becomes 8 instead of 104, the
    family-relative length becomes 168 instead of 8, and [q == p] is
    false; the copy constructor on the same [p] yields [p]. *)
Theorem op_assign_net10_not_a_copy (q : IPPrefix.t) :
  IPPrefix.ctor_addr (IPAddr.ctor_in4 [10; 0; 0; 0]) 8 = Some IPPrefix.net10 /\
  IPPrefix.Prefix (IPPrefix.op_assign q IPPrefix.net10)
  = IPPrefix.Prefix IPPrefix.net10 /\
  IPPrefix.LengthIPv6 IPPrefix.net10 = 104 /\
  IPPrefix.LengthIPv6 (IPPrefix.op_assign q IPPrefix.net10) = 8 /\
  IPPrefix.Length IPPrefix.net10 = 8 /\
  IPPrefix.Length (IPPrefix.op_assign q IPPrefix.net10) = 168 /\
  IPPrefix.op_eq (IPPrefix.op_assign q IPPrefix.net10) IPPrefix.net10 = false /\
  IPPrefix.ctor_copy IPPrefix.net10 = IPPrefix.net10.
Proof.
  repeat split; vm_compute; reflexivity.
Qed.

(** After that assignment the stored address is no longer masked to the
    stored length. *)
Lemma op_assign_net10_not_masked (q : IPPrefix.t) :
  IPAddr.Mask (IPPrefix.Prefix (IPPrefix.op_assign q IPPrefix.net10))
              (IPPrefix.LengthIPv6 (IPPrefix.op_assign q IPPrefix.net10))
  <> Some (IPPrefix.Prefix (IPPrefix.op_assign q IPPrefix.net10)).
Proof. vm_compute. discriminate. Qed.

(** ** C2: masking *)

Lemma mask_byte_idem (keep b : Z) :
  IPAddr.mask_byte keep (IPAddr.mask_byte keep b) = IPAddr.mask_byte keep b.
Proof.
  unfold IPAddr.mask_byte.
  destruct (keep <=? 0); [reflexivity|].
  destruct (8 <=? keep); [reflexivity|].
  rewrite <- Z.land_assoc, Z.land_diag. reflexivity.
Qed.

Lemma mask_bytes_idem (keep : Z) (l : list Z) :
  IPAddr.mask_bytes keep (IPAddr.mask_bytes keep l) = IPAddr.mask_bytes keep l.
Proof.
  revert keep; induction l as [|b l IH]; intros keep; simpl; [reflexivity|].
  rewrite mask_byte_idem, IH. reflexivity.
Qed.

Lemma mask_bytes_length (keep : Z) (l : list Z) :
  List.length (IPAddr.mask_bytes keep l) = List.length l.
Proof.
  revert keep; induction l as [|b l IH]; intros keep; simpl; [reflexivity|].
  rewrite IH. reflexivity.
Qed.

Lemma mask_byte_range (keep b : Z) :
  0 <= b < 256 -> 0 <= IPAddr.mask_byte keep b < 256.
Proof.
  intros R. unfold IPAddr.mask_byte.
  destruct (keep <=? 0); [lia|].
  destruct (8 <=? keep); [exact R|].
  rewrite Z.land_assoc, (Z.land_comm _ 255), <- Z.land_assoc, Z.land_comm.
  change 255 with (Z.ones 8). rewrite Z.land_ones by lia.
  apply Z.mod_pos_bound. lia.
Qed.

Lemma mask_bytes_range (keep : Z) (l : list Z) :
  Forall (fun b => 0 <= b < 256) l ->
  Forall (fun b => 0 <= b < 256) (IPAddr.mask_bytes keep l).
Proof.
  intros H; revert keep; induction H as [|b l Hb Hl IH]; intros keep; simpl.
  - constructor.
  - constructor; [apply mask_byte_range, Hb | apply IH].
Qed.

Lemma mask_bytes_all (keep : Z) (l : list Z) :
  8 * Z.of_nat (List.length l) <= keep -> IPAddr.mask_bytes keep l = l.
Proof.
  revert keep; induction l as [|b l IH]; intros keep H; [reflexivity|].
  cbn [IPAddr.mask_bytes]. cbn [List.length] in H.
  rewrite IH by lia. unfold IPAddr.mask_byte.
  destruct (Z.leb_spec keep 0); [lia|].
  destruct (Z.leb_spec 8 keep); [reflexivity|lia].
Qed.

Lemma mask_bytes_none (keep : Z) (l : list Z) :
  keep <= 0 -> IPAddr.mask_bytes keep l = repeat 0 (List.length l).
Proof.
  revert keep; induction l as [|b l IH]; intros keep H; [reflexivity|].
  cbn [IPAddr.mask_bytes List.length repeat].
  rewrite IH by lia. unfold IPAddr.mask_byte.
  destruct (Z.leb_spec keep 0); [reflexivity|lia].
Qed.

Lemma wf_intro (l : list Z) :
  List.length l = 16%nat -> Forall (fun b => 0 <= b < 256) l ->
  IPAddr.wf (IPAddr.of_bytes l) = true.
Proof.
  intros L R. unfold IPAddr.wf, IPAddr.of_bytes, IPAddr.bytes. simpl.
  rewrite L. simpl. apply forallb_forall. intros b Hb.
  rewrite Forall_forall in R. specialize (R b Hb). unfold is_uint8.
  apply andb_true_iff. rewrite Z.leb_le, Z.ltb_lt. exact R.
Qed.

Lemma Mask_wf (a m : IPAddr.t) (n : Z) :
  IPAddr.wf a = true -> IPAddr.Mask a n = Some m -> IPAddr.wf m = true.
Proof.
  intros Hwf. unfold IPAddr.Mask.
  destruct ((0 <=? n) && (n <=? 128)); [|discriminate].
  intros E; injection E as <-. apply wf_intro.
  - rewrite mask_bytes_length. apply wf_length, Hwf.
  - apply mask_bytes_range, wf_range, Hwf.
Qed.

Lemma Mask_succeeds_idem (a : IPAddr.t) (n : Z) :
  IPAddr.wf a = true -> 0 <= n <= 128 ->
  exists m, IPAddr.Mask a n = Some m /\ IPAddr.wf m = true /\
            IPAddr.Mask m n = Some m.
Proof.
  intros Hwf Hn.
  assert (G : (0 <=? n) && (n <=? 128) = true).
  { apply andb_true_iff. rewrite !Z.leb_le. exact Hn. }
  exists (IPAddr.of_bytes (IPAddr.mask_bytes n (IPAddr.bytes a))).
  assert (E : IPAddr.Mask a n
              = Some (IPAddr.of_bytes (IPAddr.mask_bytes n (IPAddr.bytes a)))).
  { unfold IPAddr.Mask. rewrite G. reflexivity. }
  split; [exact E|]. split; [exact (Mask_wf _ _ _ Hwf E)|].
  unfold IPAddr.Mask. rewrite G. unfold IPAddr.of_bytes, IPAddr.bytes. simpl.
  rewrite mask_bytes_idem. reflexivity.
Qed.

(** C2. For [0 <= n <= 128] masking succeeds and is idempotent;
    [Mask(a, 128)] is [a]; [Mask(a, 0)] is the all-zero address, whose
    family is IPv6 whatever the family of [a] was. *)
Theorem Mask_idempotent_full_zero (a : IPAddr.t) (n : Z) :
  IPAddr.wf a = true -> 0 <= n <= 128 ->
  (exists m, IPAddr.Mask a n = Some m /\ IPAddr.wf m = true /\
             IPAddr.Mask m n = Some m) /\
  IPAddr.Mask a 128 = Some a /\
  IPAddr.Mask a 0 = Some (IPAddr.of_bytes IPAddr.unspecified) /\
  IPAddr.family (IPAddr.of_bytes IPAddr.unspecified) = IPAddr.IPv6.
Proof.
  intros Hwf Hn. pose proof (wf_length a Hwf) as L.
  repeat split.
  - apply Mask_succeeds_idem; assumption.
  - unfold IPAddr.Mask. simpl. rewrite mask_bytes_all by (rewrite L; simpl; lia).
    f_equal. apply bytes_inj. reflexivity.
  - unfold IPAddr.Mask. simpl. rewrite mask_bytes_none by lia.
    rewrite L. reflexivity.
Qed.

Lemma Mask_idempotent_full_zero_witness :
  IPAddr.wf (IPAddr.ctor_in4 [192; 168; 1; 2]) = true /\ 0 <= 112 <= 128 /\
  IPAddr.Mask (IPAddr.ctor_in4 [192; 168; 1; 2]) 0
  = Some (IPAddr.of_bytes IPAddr.unspecified).
Proof.
  split; [reflexivity|]. split; [lia|].
  exact (proj1 (proj2 (proj2 (Mask_idempotent_full_zero
                                (IPAddr.ctor_in4 [192; 168; 1; 2]) 112
                                eq_refl ltac:(lia))))).
Defined.

(** Scenario 1 of the design document: 192.168.1.2 masked to 112 bits is
    192.168.0.0. *)
Example Mask_192_168_1_2_16 :
  IPAddr.Mask (IPAddr.ctor_in4 [192; 168; 1; 2]) 112
  = Some (IPAddr.ctor_in4 [192; 168; 0; 0]).
Proof. reflexivity. Qed.

(** ** C3: prefixes are stored masked *)

Lemma bytes_bit_head (b : Z) (l : list Z) (i : nat) :
  (i < 8)%nat ->
  IPAddr.bytes_bit (b :: l) i = Z.testbit b (7 - Z.of_nat i).
Proof.
  intros H. unfold IPAddr.bytes_bit.
  rewrite Nat.div_small, Nat.mod_small by exact H. reflexivity.
Qed.

Lemma bytes_bit_tail (b : Z) (l : list Z) (i : nat) :
  IPAddr.bytes_bit (b :: l) (8 + i) = IPAddr.bytes_bit l i.
Proof.
  unfold IPAddr.bytes_bit.
  replace (8 + i)%nat with (i + 1 * 8)%nat by lia.
  rewrite Nat.div_add, Nat.Div0.mod_add by lia.
  replace (i / 8 + 1)%nat with (S (i / 8)) by lia. reflexivity.
Qed.

Lemma byte_bits_high (b n : Z) : 0 <= b < 256 -> 8 <= n -> Z.testbit b n = false.
Proof.
  intros R H. rewrite <- (Z.mod_small b (2 ^ 8)) by exact R.
  apply Z.mod_pow2_bits_high. lia.
Qed.

(** Two bytes whose first [keep] bits agree are masked to the same byte. *)
Lemma mask_byte_agree (keep b1 b2 : Z) :
  0 <= b1 < 256 -> 0 <= b2 < 256 ->
  (forall p, 0 <= p < 8 -> p < keep ->
             Z.testbit b1 (7 - p) = Z.testbit b2 (7 - p)) ->
  IPAddr.mask_byte keep b1 = IPAddr.mask_byte keep b2.
Proof.
  intros R1 R2 H. unfold IPAddr.mask_byte.
  destruct (Z.leb_spec keep 0) as [K0|K0]; [reflexivity|].
  destruct (Z.leb_spec 8 keep) as [K8|K8].
  - apply Z.bits_inj'. intros n Hn.
    destruct (Z.lt_ge_cases n 8) as [Lt|Ge].
    + replace n with (7 - (7 - n)) by lia. apply H; lia.
    + rewrite !byte_bits_high by assumption. reflexivity.
  - apply Z.bits_inj'. intros n Hn. rewrite !Z.land_spec.
    rewrite Z.shiftl_spec by exact Hn. change 255 with (Z.ones 8).
    rewrite !Z.testbit_ones by lia.
    destruct (Z.leb_spec 0 n); [|lia].
    destruct (Z.ltb_spec n 8); cbn [andb]; [|rewrite !andb_false_r; reflexivity].
    destruct (Z.leb_spec 0 (n - (8 - keep))); cbn [andb];
      [|rewrite !andb_false_r; reflexivity].
    destruct (Z.ltb_spec (n - (8 - keep)) 8); [|lia].
    rewrite !andb_true_r. replace n with (7 - (7 - n)) by lia. apply H; lia.
Qed.

(** Two byte arrays whose first [keep] bits agree are masked to the same
    array. *)
Lemma mask_bytes_agree (keep : Z) (l1 l2 : list Z) :
  List.length l1 = List.length l2 ->
  Forall (fun b => 0 <= b < 256) l1 -> Forall (fun b => 0 <= b < 256) l2 ->
  (forall i : nat, Z.of_nat i < keep -> (i < 8 * List.length l1)%nat ->
                   IPAddr.bytes_bit l1 i = IPAddr.bytes_bit l2 i) ->
  IPAddr.mask_bytes keep l1 = IPAddr.mask_bytes keep l2.
Proof.
  revert keep l2; induction l1 as [|b1 l1 IH]; intros keep l2 L R1 R2 H.
  - destruct l2; [reflexivity|discriminate L].
  - destruct l2 as [|b2 l2]; [discriminate L|].
    cbn [IPAddr.mask_bytes]. f_equal.
    + apply mask_byte_agree;
        [exact (Forall_inv R1) | exact (Forall_inv R2) |].
      intros p Hp Hk. specialize (H (Z.to_nat p)).
      rewrite !bytes_bit_head in H by lia.
      rewrite Z2Nat.id in H by lia. apply H; [lia|cbn [List.length]; lia].
    + apply IH.
      * cbn [List.length] in L. lia.
      * exact (Forall_inv_tail R1).
      * exact (Forall_inv_tail R2).
      * intros i Hi Hl. specialize (H (8 + i)%nat).
        rewrite !bytes_bit_tail in H. apply H; [lia|cbn [List.length]; lia].
Qed.

Lemma mask_bytes_app (keep : Z) (l1 l2 : list Z) :
  IPAddr.mask_bytes keep (l1 ++ l2)
  = IPAddr.mask_bytes keep l1
      ++ IPAddr.mask_bytes (keep - 8 * Z.of_nat (List.length l1)) l2.
Proof.
  revert keep; induction l1 as [|b l1 IH]; intros keep.
  - cbn [app IPAddr.mask_bytes List.length]. f_equal. lia.
  - cbn [app IPAddr.mask_bytes List.length]. rewrite IH.
    replace (keep - 8 * Z.of_nat (S (List.length l1)))
      with (keep - 8 - 8 * Z.of_nat (List.length l1)) by lia.
    reflexivity.
Qed.

Lemma wf_split (a : IPAddr.t) :
  IPAddr.wf a = true ->
  IPAddr.bytes a = firstn 12 (IPAddr.bytes a) ++ skipn 12 (IPAddr.bytes a) /\
  List.length (firstn 12 (IPAddr.bytes a)) = 12%nat /\
  List.length (skipn 12 (IPAddr.bytes a)) = 4%nat.
Proof.
  intros Hwf. apply wf_length in Hwf.
  rewrite firstn_skipn, length_firstn, length_skipn, Hwf. repeat split.
Qed.

(** Masking an IPv4-family address to 96 bits or more keeps the mapped
    prefix. *)
Lemma Mask_IPv4_family (a m : IPAddr.t) (n : Z) :
  IPAddr.wf a = true -> IPAddr.family a = IPAddr.IPv4 -> 96 <= n ->
  IPAddr.Mask a n = Some m -> IPAddr.family m = IPAddr.IPv4.
Proof.
  intros Hwf F Hn E. pose proof (Mask_wf _ _ _ Hwf E) as Hm.
  apply (family_IPv4_iff m Hm). apply (family_IPv4_iff a Hwf) in F.
  unfold IPAddr.Mask in E.
  destruct ((0 <=? n) && (n <=? 128)); [|discriminate].
  injection E as <-. unfold IPAddr.of_bytes, IPAddr.bytes. simpl.
  destruct (wf_split a Hwf) as (S & L1 & L2).
  unfold IPAddr.bytes in *. rewrite S, mask_bytes_app, F.
  rewrite (mask_bytes_all n IPAddr.v4_mapped_prefix) by (simpl; lia).
  reflexivity.
Qed.

Lemma mask_byte_255 (keep b : Z) :
  IPAddr.mask_byte keep b = 255 -> 8 <= keep.
Proof.
  unfold IPAddr.mask_byte.
  destruct (Z.leb_spec keep 0); [discriminate|].
  destruct (Z.leb_spec 8 keep); [lia|].
  intros E. exfalso.
  assert (B : Z.testbit (Z.land b (Z.land 255 (Z.shiftl 255 (8 - keep)))) 0
              = true) by (rewrite E; reflexivity).
  rewrite !Z.land_spec, Z.shiftl_spec_low in B by lia.
  rewrite !andb_false_r in B. discriminate B.
Qed.

(** Masking never turns an IPv6-family address into an IPv4-family one. *)
Lemma Mask_IPv6_family (a m : IPAddr.t) (n : Z) :
  IPAddr.wf a = true -> IPAddr.family a = IPAddr.IPv6 ->
  IPAddr.Mask a n = Some m -> IPAddr.family m = IPAddr.IPv6.
Proof.
  intros Hwf F E. pose proof (Mask_wf _ _ _ Hwf E) as Hm.
  apply (family_IPv6_iff m Hm). apply (family_IPv6_iff a Hwf) in F.
  intros C. apply F. clear F.
  unfold IPAddr.Mask in E.
  destruct ((0 <=? n) && (n <=? 128)); [|discriminate].
  injection E as <-. clear Hm.
  explode a Hwf. unfold IPAddr.of_bytes, IPAddr.bytes in C.
  cbn [IPAddr.in6 s6_addr IPAddr.mask_bytes firstn] in C.
  unfold IPAddr.v4_mapped_prefix in C.
  injection C as C0 C1 C2 C3 C4 C5 C6 C7 C8 C9 C10 C11.
  apply mask_byte_255 in C11 as K.
  unfold IPAddr.mask_byte in *.
  repeat match goal with
         | H : context [?x <=? ?y] |- _ => destruct (Z.leb_spec x y); try lia
         end.
  cbn [firstn]. unfold IPAddr.v4_mapped_prefix. congruence.
Qed.

Lemma bytes_bit_firstn (l : list Z) (k i : nat) :
  (i < 8 * k)%nat ->
  IPAddr.bytes_bit (firstn k l) i = IPAddr.bytes_bit l i.
Proof.
  intros H. unfold IPAddr.bytes_bit. rewrite nth_firstn.
  assert (D : (i / 8 < k)%nat) by (apply Nat.Div0.div_lt_upper_bound; lia).
  apply Nat.ltb_lt in D. rewrite D. reflexivity.
Qed.

(** Same-family addresses that agree on the first [len] bits of their
    family agree on the first [len] (IPv6) or [96 + len] (IPv4) bits of
    the 128-bit representation. *)
Lemma family_bits_agree (a1 a2 : IPAddr.t) (len : Z) :
  IPAddr.wf a1 = true -> IPAddr.wf a2 = true ->
  IPAddr.family a1 = IPAddr.family a2 ->
  (forall i : nat, Z.of_nat i < len ->
                   IPAddr.family_bit a1 i = IPAddr.family_bit a2 i) ->
  forall i : nat,
    Z.of_nat i < (if IPAddr.is_IPv4 a1 then len + 96 else len) ->
    IPAddr.bytes_bit (IPAddr.bytes a1) i = IPAddr.bytes_bit (IPAddr.bytes a2) i.
Proof.
  intros W1 W2 F H i Hi. unfold IPAddr.family_bit in H.
  assert (F2 : IPAddr.is_IPv4 a2 = IPAddr.is_IPv4 a1)
    by (unfold IPAddr.is_IPv4; rewrite F; reflexivity).
  rewrite F2 in H. destruct (IPAddr.is_IPv4 a1) eqn:V.
  - destruct (Nat.lt_ge_cases i 96) as [Lo|Hi96].
    + rewrite <- (bytes_bit_firstn (IPAddr.bytes a1) 12) by lia.
      rewrite <- (bytes_bit_firstn (IPAddr.bytes a2) 12) by lia.
      apply is_IPv4_true in V, F2.
      apply (family_IPv4_iff a1 W1) in V. apply (family_IPv4_iff a2 W2) in F2.
      rewrite V, F2. reflexivity.
    + replace i with (96 + (i - 96))%nat by lia. apply H. lia.
  - apply H. exact Hi.
Qed.

Lemma Mask_agree (a1 a2 : IPAddr.t) (n : Z) :
  IPAddr.wf a1 = true -> IPAddr.wf a2 = true ->
  (forall i : nat, Z.of_nat i < n ->
     IPAddr.bytes_bit (IPAddr.bytes a1) i = IPAddr.bytes_bit (IPAddr.bytes a2) i) ->
  IPAddr.Mask a1 n = IPAddr.Mask a2 n.
Proof.
  intros W1 W2 H. unfold IPAddr.Mask.
  destruct ((0 <=? n) && (n <=? 128)); [|reflexivity].
  do 2 f_equal. apply mask_bytes_agree.
  - rewrite (wf_length a1 W1), (wf_length a2 W2). reflexivity.
  - apply wf_range, W1.
  - apply wf_range, W2.
  - intros i Hi _. apply H, Hi.
Qed.

Lemma Mask_idem (a m : IPAddr.t) (n : Z) :
  IPAddr.Mask a n = Some m -> IPAddr.Mask m n = Some m.
Proof.
  unfold IPAddr.Mask. destruct ((0 <=? n) && (n <=? 128)); [|discriminate].
  intros E; injection E as <-. unfold IPAddr.of_bytes, IPAddr.bytes. simpl.
  rewrite mask_bytes_idem. reflexivity.
Qed.

Lemma prefix_op_eq_iff (p q : IPPrefix.t) :
  IPAddr.wf (IPPrefix.Prefix p) = true -> IPAddr.wf (IPPrefix.Prefix q) = true ->
  (IPPrefix.op_eq p q = true <->
   IPPrefix.Prefix p = IPPrefix.Prefix q /\ IPPrefix.Length p = IPPrefix.Length q).
Proof.
  intros Wp Wq. unfold IPPrefix.op_eq.
  rewrite andb_true_iff, Z.eqb_eq, (op_eq_iff _ _ Wp Wq). reflexivity.
Qed.

(** [IPPrefix(addr, len)] stores the address masked to the
    128-bit-scale length: masking the stored address again changes
    nothing, and [Length()] gives back [len].  Built from two same-family
    addresses that agree on their first [len] bits, the two prefixes are
    the same and compare equal.  [operator==] on prefixes is equality of
    the pair (masked address, family-relative length). *)
Theorem prefix_ctor_normalizes (a1 a2 : IPAddr.t) (len : Z) :
  IPAddr.wf a1 = true -> IPAddr.wf a2 = true ->
  IPAddr.family a1 = IPAddr.family a2 ->
  0 <= len <= (if IPAddr.is_IPv4 a1 then 32 else 128) ->
  (forall i : nat, Z.of_nat i < len ->
                   IPAddr.family_bit a1 i = IPAddr.family_bit a2 i) ->
  (exists p1 p2,
      IPPrefix.ctor_addr a1 len = Some p1 /\
      IPPrefix.ctor_addr a2 len = Some p2 /\
      IPPrefix.op_eq p1 p2 = true /\ p1 = p2 /\
      IPAddr.wf (IPPrefix.Prefix p1) = true /\
      IPAddr.Mask (IPPrefix.Prefix p1) (IPPrefix.LengthIPv6 p1)
      = Some (IPPrefix.Prefix p1) /\
      IPAddr.family (IPPrefix.Prefix p1) = IPAddr.family a1 /\
      IPPrefix.Length p1 = len) /\
  (forall p q,
      IPAddr.wf (IPPrefix.Prefix p) = true ->
      IPAddr.wf (IPPrefix.Prefix q) = true ->
      (IPPrefix.op_eq p q = true <->
       IPPrefix.Prefix p = IPPrefix.Prefix q /\
       IPPrefix.Length p = IPPrefix.Length q)).
Proof.
  intros W1 W2 F Hlen H. split; [|apply prefix_op_eq_iff].
  pose proof (family_bits_agree a1 a2 len W1 W2 F H) as A.
  assert (F2 : IPAddr.is_IPv4 a2 = IPAddr.is_IPv4 a1)
    by (unfold IPAddr.is_IPv4; rewrite F; reflexivity).
  unfold IPPrefix.ctor_addr. rewrite F2.
  set (n := if IPAddr.is_IPv4 a1 then len + 96 else len) in *.
  rewrite <- (Mask_agree a1 a2 n W1 W2 A).
  assert (Hn : 0 <= n <= 128) by (subst n; destruct (IPAddr.is_IPv4 a1); lia).
  destruct (Mask_succeeds_idem a1 n W1 Hn) as (m & E & Wm & Em).
  rewrite E. exists (IPPrefix.mk m n), (IPPrefix.mk m n).
  assert (Fm : IPAddr.family m = IPAddr.family a1).
  { destruct (IPAddr.family a1) eqn:Fa.
    - apply (Mask_IPv4_family a1 m n W1 Fa); [|exact E].
      apply is_IPv4_true in Fa. subst n. rewrite Fa. lia.
    - apply (Mask_IPv6_family a1 m n W1 Fa E). }
  repeat split; try assumption.
  - apply prefix_op_eq_iff; [exact Wm|exact Wm|]. split; reflexivity.
  - unfold IPPrefix.Length. cbn [IPPrefix.prefix IPPrefix.length].
    assert (Vm : IPAddr.is_IPv4 m = IPAddr.is_IPv4 a1)
      by (unfold IPAddr.is_IPv4; rewrite Fm; reflexivity).
    rewrite Vm. subst n.
    destruct (IPAddr.is_IPv4 a1); [replace (len + 96 - 96) with len by lia|];
      apply Z.mod_small; lia.
Qed.

Lemma prefix_ctor_normalizes_witness :
  exists p1 p2,
    IPPrefix.ctor_addr (IPAddr.ctor_in4 [10; 0; 0; 0]) 8 = Some p1 /\
    IPPrefix.ctor_addr (IPAddr.ctor_in4 [10; 255; 255; 255]) 8 = Some p2 /\
    IPPrefix.op_eq p1 p2 = true.
Proof.
  destruct (prefix_ctor_normalizes
              (IPAddr.ctor_in4 [10; 0; 0; 0])
              (IPAddr.ctor_in4 [10; 255; 255; 255]) 8
              eq_refl eq_refl eq_refl) as [(p1 & p2 & E1 & E2 & Eq & _) _].
  - simpl. lia.
  - intros i Hi. do 8 (destruct i as [|i]; [reflexivity|]). lia.
  - exists p1, p2. auto.
Defined.

(** A masked byte keeps its first [keep] bits and has the others zero. *)
Lemma mask_byte_bit (keep b p : Z) :
  0 <= b < 256 -> 0 <= p < 8 ->
  Z.testbit (IPAddr.mask_byte keep b) (7 - p)
  = (p <? keep) && Z.testbit b (7 - p).
Proof.
  intros R P. unfold IPAddr.mask_byte.
  destruct (Z.leb_spec keep 0) as [K0|K0].
  - rewrite Z.bits_0. destruct (Z.ltb_spec p keep); [lia|reflexivity].
  - destruct (Z.leb_spec 8 keep) as [K8|K8].
    + destruct (Z.ltb_spec p keep); [reflexivity|lia].
    + rewrite !Z.land_spec, Z.shiftl_spec by lia. change 255 with (Z.ones 8).
      rewrite !Z.testbit_ones by lia.
      destruct (Z.leb_spec 0 (7 - p)); [|lia].
      destruct (Z.ltb_spec (7 - p) 8); [|lia].
      destruct (Z.ltb_spec p keep);
        destruct (Z.leb_spec 0 (7 - p - (8 - keep)));
        destruct (Z.ltb_spec (7 - p - (8 - keep)) 8); try lia;
        cbn [andb]; rewrite ?andb_true_r, ?andb_false_r; reflexivity.
Qed.

Lemma mask_bytes_bit (keep : Z) (l : list Z) (i : nat) :
  Forall (fun b => 0 <= b < 256) l -> (i < 8 * List.length l)%nat ->
  IPAddr.bytes_bit (IPAddr.mask_bytes keep l) i
  = (Z.of_nat i <? keep) && IPAddr.bytes_bit l i.
Proof.
  intros R; revert keep i; induction R as [|b l Rb Rl IH]; intros keep i Hi.
  - cbn in Hi. lia.
  - cbn [IPAddr.mask_bytes]. destruct (Nat.lt_ge_cases i 8) as [Lo|Hi8].
    + rewrite !bytes_bit_head by exact Lo. apply mask_byte_bit; [exact Rb|lia].
    + replace i with (8 + (i - 8))%nat by lia. rewrite !bytes_bit_tail.
      rewrite IH by (cbn [List.length] in Hi; lia). f_equal.
      destruct (Z.ltb_spec (Z.of_nat (i - 8)) (keep - 8)),
        (Z.ltb_spec (Z.of_nat (8 + (i - 8))) keep); try reflexivity; lia.
Qed.

(** The bits of a masked address: the first [n] are those of the address,
    the others are zero. *)
Lemma Mask_bits (a m : IPAddr.t) (n : Z) (i : nat) :
  IPAddr.wf a = true -> IPAddr.Mask a n = Some m -> (i < 128)%nat ->
  IPAddr.bytes_bit (IPAddr.bytes m) i
  = (Z.of_nat i <? n) && IPAddr.bytes_bit (IPAddr.bytes a) i.
Proof.
  intros Hwf E Hi. unfold IPAddr.Mask in E.
  destruct ((0 <=? n) && (n <=? 128)); [|discriminate].
  injection E as <-. unfold IPAddr.of_bytes. cbn [IPAddr.bytes IPAddr.in6 s6_addr].
  apply mask_bytes_bit; [apply wf_range, Hwf|].
  rewrite (wf_length a Hwf). lia.
Qed.

(** The prefix that the constructor stores has the first [LengthIPv6()]
    bits of the address it was given and zeros after them. *)
Lemma ctor_addr_bits (a : IPAddr.t) (len : Z) (p : IPPrefix.t) (i : nat) :
  IPAddr.wf a = true -> IPPrefix.ctor_addr a len = Some p -> (i < 128)%nat ->
  IPAddr.bytes_bit (IPAddr.bytes (IPPrefix.Prefix p)) i
  = (Z.of_nat i <? IPPrefix.LengthIPv6 p)
    && IPAddr.bytes_bit (IPAddr.bytes a) i.
Proof.
  intros Hwf E Hi. unfold IPPrefix.ctor_addr in E.
  destruct (IPAddr.Mask a (if IPAddr.is_IPv4 a then len + 96 else len))
    as [m|] eqn:M; [|discriminate].
  injection E as <-. cbn [IPPrefix.Prefix IPPrefix.LengthIPv6
                           IPPrefix.prefix IPPrefix.length].
  exact (Mask_bits a m _ i Hwf M Hi).
Qed.

(** C3. The prefix 10.0.0.0/8 that the constructor builds is stored
    masked to its length 104.  After the assignment [q = p] from it, [q]
    holds the same address with stored length 8: the address is not
    masked to that length (bit 80, of the mapped-prefix marker, is set;
    masking to 8 bits would give the all-zero address), and [q] does not
    compare equal to [p]. *)
Theorem op_assign_net10_breaks_masking (q : IPPrefix.t) :
  IPPrefix.ctor_addr (IPAddr.ctor_in4 [10; 0; 0; 0]) 8 = Some IPPrefix.net10 /\
  IPAddr.Mask (IPPrefix.Prefix IPPrefix.net10)
              (IPPrefix.LengthIPv6 IPPrefix.net10)
  = Some (IPPrefix.Prefix IPPrefix.net10) /\
  IPPrefix.Prefix (IPPrefix.op_assign q IPPrefix.net10)
  = IPPrefix.Prefix IPPrefix.net10 /\
  IPPrefix.LengthIPv6 (IPPrefix.op_assign q IPPrefix.net10) = 8 /\
  IPAddr.bytes_bit
    (IPAddr.bytes (IPPrefix.Prefix (IPPrefix.op_assign q IPPrefix.net10))) 80
  = true /\
  IPAddr.Mask (IPPrefix.Prefix (IPPrefix.op_assign q IPPrefix.net10))
              (IPPrefix.LengthIPv6 (IPPrefix.op_assign q IPPrefix.net10))
  = Some (IPAddr.of_bytes IPAddr.unspecified) /\
  IPAddr.Mask (IPPrefix.Prefix (IPPrefix.op_assign q IPPrefix.net10))
              (IPPrefix.LengthIPv6 (IPPrefix.op_assign q IPPrefix.net10))
  <> Some (IPPrefix.Prefix (IPPrefix.op_assign q IPPrefix.net10)) /\
  IPPrefix.op_eq (IPPrefix.op_assign q IPPrefix.net10) IPPrefix.net10 = false.
Proof.
  repeat split; try (vm_compute; reflexivity).
  vm_compute. discriminate.
Qed.

(** ** C6: the raw-byte constructor *)

Lemma word_digits (b0 b1 b2 b3 : Z) :
  0 <= b0 < 256 -> 0 <= b1 < 256 -> 0 <= b2 < 256 -> 0 <= b3 < 256 ->
  let w := b0 + b1 * 2 ^ 8 + b2 * 2 ^ 16 + b3 * 2 ^ 24 in
  w mod 2 ^ 8 = b0 /\ (w / 2 ^ 8) mod 2 ^ 8 = b1 /\
  (w / 2 ^ 16) mod 2 ^ 8 = b2 /\ (w / 2 ^ 24) mod 2 ^ 8 = b3.
Proof.
  intros R0 R1 R2 R3 w. subst w.
  change (2 ^ 8) with 256. change (2 ^ 16) with 65536.
  change (2 ^ 24) with 16777216.
  repeat split; Z.div_mod_to_equations; lia.
Qed.

Lemma nth_app_at (pre l : list Z) (k : nat) :
  nth (List.length pre + k) (pre ++ l) 0 = nth k l 0.
Proof. apply app_nth2_plus. Qed.

Lemma load32_at (host : Endianness) (pre post : list Z) (b0 b1 b2 b3 : Z) :
  load32 host (pre ++ [b0; b1; b2; b3] ++ post) (List.length pre)
  = load32 host [b0; b1; b2; b3] 0.
Proof.
  unfold load32. rewrite !nth_app_at.
  pose proof (nth_app_at pre ([b0; b1; b2; b3] ++ post) 0) as E.
  rewrite Nat.add_0_r in E. rewrite E. reflexivity.
Qed.

Lemma store32_at (host : Endianness) (pre post : list Z) (b0 b1 b2 b3 w : Z) :
  store32 host (pre ++ [b0; b1; b2; b3] ++ post) (List.length pre) w
  = pre ++ word_bytes host w ++ post.
Proof.
  unfold store32.
  rewrite firstn_app, firstn_all, Nat.sub_diag. cbn [firstn]. rewrite app_nil_r.
  rewrite skipn_app, skipn_all2 by lia.
  replace (List.length pre + 4 - List.length pre)%nat with 4%nat by lia.
  reflexivity.
Qed.

Lemma htonl_little_bytes (b0 b1 b2 b3 : Z) :
  0 <= b0 < 256 -> 0 <= b1 < 256 -> 0 <= b2 < 256 -> 0 <= b3 < 256 ->
  word_bytes LittleEndian
    (htonl LittleEndian (load32 LittleEndian [b0; b1; b2; b3] 0))
  = [b3; b2; b1; b0].
Proof.
  intros R0 R1 R2 R3. unfold load32, htonl, bswap32. cbn [nth Nat.add].
  destruct (word_digits b0 b1 b2 b3 R0 R1 R2 R3) as (D0 & D1 & D2 & D3).
  cbv zeta in D0, D1, D2, D3. rewrite D0, D1, D2, D3.
  replace (b0 * 2 ^ 24 + b1 * 2 ^ 16 + b2 * 2 ^ 8 + b3)
    with (b3 + b2 * 2 ^ 8 + b1 * 2 ^ 16 + b0 * 2 ^ 24) by lia.
  destruct (word_digits b3 b2 b1 b0 R3 R2 R1 R0) as (E0 & E1 & E2 & E3).
  cbv zeta in E0, E1, E2, E3. unfold word_bytes. rewrite E0, E1, E2, E3.
  reflexivity.
Qed.

Lemma htonl_big_bytes (b0 b1 b2 b3 : Z) :
  0 <= b0 < 256 -> 0 <= b1 < 256 -> 0 <= b2 < 256 -> 0 <= b3 < 256 ->
  word_bytes BigEndian (htonl BigEndian (load32 BigEndian [b0; b1; b2; b3] 0))
  = [b0; b1; b2; b3].
Proof.
  intros R0 R1 R2 R3. unfold load32, htonl. cbn [nth Nat.add].
  destruct (word_digits b3 b2 b1 b0 R3 R2 R1 R0) as (E0 & E1 & E2 & E3).
  cbv zeta in E0, E1, E2, E3. unfold word_bytes. rewrite E0, E1, E2, E3.
  reflexivity.
Qed.

(** What [*p = htonl( *p )] does to the four bytes at [p]. *)
Lemma store_htonl (host : Endianness) (pre post : list Z) (b0 b1 b2 b3 : Z) :
  0 <= b0 < 256 -> 0 <= b1 < 256 -> 0 <= b2 < 256 -> 0 <= b3 < 256 ->
  let m := pre ++ [b0; b1; b2; b3] ++ post in
  store32 host m (List.length pre) (htonl host (load32 host m (List.length pre)))
  = pre ++ match host with
           | LittleEndian => [b3; b2; b1; b0]
           | BigEndian => [b0; b1; b2; b3]
           end ++ post.
Proof.
  intros R0 R1 R2 R3 m. subst m. rewrite load32_at, store32_at.
  destruct host; [rewrite htonl_little_bytes | rewrite htonl_big_bytes];
    auto.
Qed.

Ltac range_hyps R :=
  repeat match type of R with
         | Forall _ (_ :: _) =>
             let R1 := fresh "R" in
             pose proof (Forall_inv R) as R1; apply Forall_inv_tail in R;
             cbv beta in R1
         end.

Ltac use_store_htonl host pre post b0 b1 b2 b3 :=
  let S := fresh "S" in
  pose proof (store_htonl host pre post b0 b1 b2 b3
                ltac:(assumption) ltac:(assumption)
                ltac:(assumption) ltac:(assumption)) as S;
  cbv zeta in S; cbn [app List.length] in S; rewrite S; clear S.

Lemma ctor_raw_IPv4_Host (host : Endianness) (b0 b1 b2 b3 : Z) :
  0 <= b0 < 256 -> 0 <= b1 < 256 -> 0 <= b2 < 256 -> 0 <= b3 < 256 ->
  IPAddr.bytes (IPAddr.ctor_raw host IPAddr.IPv4 [b0; b1; b2; b3] IPAddr.Host)
  = IPAddr.v4_mapped_prefix
      ++ match host with
         | LittleEndian => [b3; b2; b1; b0]
         | BigEndian => [b0; b1; b2; b3]
         end.
Proof.
  intros R0 R1 R2 R3.
  unfold IPAddr.ctor_raw, memcpy, IPAddr.v4_mapped_prefix, IPAddr.bytes,
    IPAddr.of_bytes.
  cbn [repeat firstn skipn app Nat.add IPAddr.in6 s6_addr].
  use_store_htonl host
    [0; 0; 0; 0; 0; 0; 0; 0; 0; 0; 255; 255] (@nil Z) b0 b1 b2 b3.
  destruct host; reflexivity.
Qed.

Lemma ctor_raw_IPv6_Host (host : Endianness)
    (b0 b1 b2 b3 b4 b5 b6 b7 b8 b9 b10 b11 b12 b13 b14 b15 : Z) :
  Forall (fun b => 0 <= b < 256)
    [b0; b1; b2; b3; b4; b5; b6; b7; b8; b9; b10; b11; b12; b13; b14; b15] ->
  IPAddr.bytes
    (IPAddr.ctor_raw host IPAddr.IPv6
       [b0; b1; b2; b3; b4; b5; b6; b7; b8; b9; b10; b11; b12; b13; b14; b15]
       IPAddr.Host)
  = match host with
    | LittleEndian =>
        [b3; b2; b1; b0; b7; b6; b5; b4; b11; b10; b9; b8; b15; b14; b13; b12]
    | BigEndian =>
        [b0; b1; b2; b3; b4; b5; b6; b7; b8; b9; b10; b11; b12; b13; b14; b15]
    end.
Proof.
  intros R. range_hyps R.
  unfold IPAddr.ctor_raw, memcpy, IPAddr.bytes, IPAddr.of_bytes.
  cbn [repeat firstn skipn app Nat.add Nat.mul fold_left IPAddr.in6 s6_addr].
  destruct host.
  - use_store_htonl LittleEndian (@nil Z)
      [b4; b5; b6; b7; b8; b9; b10; b11; b12; b13; b14; b15] b0 b1 b2 b3.
    use_store_htonl LittleEndian [b3; b2; b1; b0]
      [b8; b9; b10; b11; b12; b13; b14; b15] b4 b5 b6 b7.
    use_store_htonl LittleEndian [b3; b2; b1; b0; b7; b6; b5; b4]
      [b12; b13; b14; b15] b8 b9 b10 b11.
    use_store_htonl LittleEndian
      [b3; b2; b1; b0; b7; b6; b5; b4; b11; b10; b9; b8]
      (@nil Z) b12 b13 b14 b15.
    reflexivity.
  - use_store_htonl BigEndian (@nil Z)
      [b4; b5; b6; b7; b8; b9; b10; b11; b12; b13; b14; b15] b0 b1 b2 b3.
    use_store_htonl BigEndian [b0; b1; b2; b3]
      [b8; b9; b10; b11; b12; b13; b14; b15] b4 b5 b6 b7.
    use_store_htonl BigEndian [b0; b1; b2; b3; b4; b5; b6; b7]
      [b12; b13; b14; b15] b8 b9 b10 b11.
    use_store_htonl BigEndian
      [b0; b1; b2; b3; b4; b5; b6; b7; b8; b9; b10; b11]
      (@nil Z) b12 b13 b14 b15.
    reflexivity.
Qed.

(** On a big-endian host [htonl] is the identity, so the order flag makes
    no difference there. *)
Lemma ctor_raw_big_endian (family : IPAddr.Family) (raw : list Z) :
  Forall (fun b => 0 <= b < 256) raw ->
  List.length raw = (match family with IPAddr.IPv4 => 4 | IPAddr.IPv6 => 16 end)%nat ->
  IPAddr.ctor_raw BigEndian family raw IPAddr.Host
  = IPAddr.ctor_raw BigEndian family raw IPAddr.Network.
Proof.
  intros R L. apply bytes_inj. destruct family.
  - do 4 (destruct raw as [|? raw]; [discriminate L|]).
    destruct raw; [|discriminate L]. range_hyps R.
    rewrite ctor_raw_IPv4_Host by assumption. reflexivity.
  - do 16 (destruct raw as [|? raw]; [discriminate L|]).
    destruct raw; [|discriminate L].
    rewrite ctor_raw_IPv6_Host by assumption. reflexivity.
Qed.

Lemma load32_four (host : Endianness) (pre post : list Z) (b0 b1 b2 b3 : Z) :
  load32 host (pre ++ [b0; b1; b2; b3] ++ post) (List.length pre)
  = match host with
    | LittleEndian => b0 + b1 * 2 ^ 8 + b2 * 2 ^ 16 + b3 * 2 ^ 24
    | BigEndian => b3 + b2 * 2 ^ 8 + b1 * 2 ^ 16 + b0 * 2 ^ 24
    end.
Proof. rewrite load32_at. destruct host; reflexivity. Qed.

(** The word read back after [*p = htonl( *p )] is [htonl] of the word
    that was there. *)
Lemma load32_htonl (host : Endianness) (pre post pre' post' : list Z)
    (b0 b1 b2 b3 : Z) :
  0 <= b0 < 256 -> 0 <= b1 < 256 -> 0 <= b2 < 256 -> 0 <= b3 < 256 ->
  load32 host
    (pre ++ match host with
            | LittleEndian => [b3; b2; b1; b0]
            | BigEndian => [b0; b1; b2; b3]
            end ++ post) (List.length pre)
  = htonl host (load32 host (pre' ++ [b0; b1; b2; b3] ++ post')
                  (List.length pre')).
Proof.
  intros R0 R1 R2 R3. rewrite (load32_four host pre' post').
  destruct host.
  - rewrite (load32_four LittleEndian pre post). unfold htonl, bswap32.
    destruct (word_digits b0 b1 b2 b3 R0 R1 R2 R3) as (D0 & D1 & D2 & D3).
    cbv zeta in D0, D1, D2, D3. rewrite D0, D1, D2, D3. lia.
  - rewrite (load32_four BigEndian pre post). reflexivity.
Qed.

Ltac use_load32_htonl host pre post pre' post' b0 b1 b2 b3 :=
  let S := fresh "S" in
  pose proof (load32_htonl host pre post pre' post' b0 b1 b2 b3
                ltac:(assumption) ltac:(assumption)
                ltac:(assumption) ltac:(assumption)) as S;
  cbn [app List.length] in S; exact S.

(** C6. The raw-byte constructor stores 4 IPv4 bytes after the mapped
    prefix (the result is IPv4-family) and 16 IPv6 bytes in place.  With
    the [Network] flag the bytes are stored as they are.  With the [Host]
    flag every 32-bit word, the IPv4 word and each of the four IPv6 words
    by itself, is replaced by its [htonl]: on a little-endian host the
    four bytes of each word are reversed (which is not the reversal of
    the 16 bytes), on a big-endian host the bytes stay as they are. *)
Theorem ctor_raw_byte_order (host : Endianness) (raw : list Z) :
  Forall (fun b => 0 <= b < 256) raw ->
  (List.length raw = 4%nat ->
   IPAddr.bytes (IPAddr.ctor_raw host IPAddr.IPv4 raw IPAddr.Network)
   = IPAddr.v4_mapped_prefix ++ raw /\
   IPAddr.bytes (IPAddr.ctor_raw host IPAddr.IPv4 raw IPAddr.Host)
   = IPAddr.v4_mapped_prefix
       ++ match host with
          | LittleEndian => rev raw
          | BigEndian => raw
          end /\
   load32 host
     (IPAddr.bytes (IPAddr.ctor_raw host IPAddr.IPv4 raw IPAddr.Host)) 12
   = htonl host (load32 host raw 0) /\
   (forall order,
       IPAddr.family (IPAddr.ctor_raw host IPAddr.IPv4 raw order)
       = IPAddr.IPv4)) /\
  (List.length raw = 16%nat ->
   IPAddr.bytes (IPAddr.ctor_raw host IPAddr.IPv6 raw IPAddr.Network) = raw /\
   IPAddr.bytes (IPAddr.ctor_raw host IPAddr.IPv6 raw IPAddr.Host)
   = match host with
     | LittleEndian => swap_words raw
     | BigEndian => raw
     end /\
   (forall i, (i < 4)%nat ->
      load32 host
        (IPAddr.bytes (IPAddr.ctor_raw host IPAddr.IPv6 raw IPAddr.Host))
        (4 * i)
      = htonl host (load32 host raw (4 * i))) /\
   (firstn 4 raw <> skipn 12 raw -> swap_words raw <> rev raw)).
Proof.
  intros R. split; intros L.
  - do 4 (destruct raw as [|? raw]; [discriminate L|]).
    destruct raw; [|discriminate L]. range_hyps R.
    split; [reflexivity|].
    split; [rewrite ctor_raw_IPv4_Host by assumption;
            destruct host; reflexivity|].
    split.
    + rewrite ctor_raw_IPv4_Host by assumption.
      destruct host;
        [use_load32_htonl LittleEndian IPAddr.v4_mapped_prefix (@nil Z)
           (@nil Z) (@nil Z) z z0 z1 z2
        |use_load32_htonl BigEndian IPAddr.v4_mapped_prefix (@nil Z)
           (@nil Z) (@nil Z) z z0 z1 z2].
    + intros order. unfold IPAddr.family. destruct order; [|reflexivity].
      rewrite ctor_raw_IPv4_Host by assumption. destruct host; reflexivity.
  - do 16 (destruct raw as [|? raw]; [discriminate L|]).
    destruct raw; [|discriminate L].
    split; [reflexivity|].
    split; [rewrite ctor_raw_IPv6_Host by assumption;
            destruct host; reflexivity|].
    split.
    + rewrite ctor_raw_IPv6_Host by assumption. range_hyps R.
      intros i Hi.
      destruct i as [|[|[|[|i]]]]; [| | | |lia]; cbn [Nat.mul Nat.add].
      * destruct host;
          [use_load32_htonl LittleEndian (@nil Z)
             [z6; z5; z4; z3; z10; z9; z8; z7; z14; z13; z12; z11]
             (@nil Z) [z3; z4; z5; z6; z7; z8; z9; z10; z11; z12; z13; z14]
             z z0 z1 z2
          |use_load32_htonl BigEndian (@nil Z)
             [z3; z4; z5; z6; z7; z8; z9; z10; z11; z12; z13; z14]
             (@nil Z) [z3; z4; z5; z6; z7; z8; z9; z10; z11; z12; z13; z14]
             z z0 z1 z2].
      * destruct host;
          [use_load32_htonl LittleEndian [z2; z1; z0; z]
             [z10; z9; z8; z7; z14; z13; z12; z11]
             [z; z0; z1; z2] [z7; z8; z9; z10; z11; z12; z13; z14]
             z3 z4 z5 z6
          |use_load32_htonl BigEndian [z; z0; z1; z2]
             [z7; z8; z9; z10; z11; z12; z13; z14]
             [z; z0; z1; z2] [z7; z8; z9; z10; z11; z12; z13; z14]
             z3 z4 z5 z6].
      * destruct host;
          [use_load32_htonl LittleEndian [z2; z1; z0; z; z6; z5; z4; z3]
             [z14; z13; z12; z11]
             [z; z0; z1; z2; z3; z4; z5; z6] [z11; z12; z13; z14]
             z7 z8 z9 z10
          |use_load32_htonl BigEndian [z; z0; z1; z2; z3; z4; z5; z6]
             [z11; z12; z13; z14]
             [z; z0; z1; z2; z3; z4; z5; z6] [z11; z12; z13; z14]
             z7 z8 z9 z10].
      * destruct host;
          [use_load32_htonl LittleEndian
             [z2; z1; z0; z; z6; z5; z4; z3; z10; z9; z8; z7] (@nil Z)
             [z; z0; z1; z2; z3; z4; z5; z6; z7; z8; z9; z10] (@nil Z)
             z11 z12 z13 z14
          |use_load32_htonl BigEndian
             [z; z0; z1; z2; z3; z4; z5; z6; z7; z8; z9; z10] (@nil Z)
             [z; z0; z1; z2; z3; z4; z5; z6; z7; z8; z9; z10] (@nil Z)
             z11 z12 z13 z14].
    + cbn [swap_words rev app firstn skipn]. intros N E. apply N.
      injection E. intros. congruence.
Qed.

Lemma ctor_raw_byte_order_witness :
  Forall (fun b => 0 <= b < 256) [192; 168; 1; 2] /\
  IPAddr.bytes
    (IPAddr.ctor_raw LittleEndian IPAddr.IPv4 [192; 168; 1; 2] IPAddr.Host)
  = IPAddr.v4_mapped_prefix ++ [2; 1; 168; 192].
Proof.
  assert (R : Forall (fun b => 0 <= b < 256) [192; 168; 1; 2])
    by (repeat constructor; lia).
  split; [exact R|].
  exact (proj1 (proj2 (proj1 (ctor_raw_byte_order LittleEndian
                                [192; 168; 1; 2] R) eq_refl))).
Defined.

(** On a big-endian host the [Host] flag swaps nothing: the four bytes
    1, 2, 3, 4 are stored in that order, as with the [Network] flag, and
    not reversed. *)
Lemma ctor_raw_Host_big_endian_no_swap :
  IPAddr.bytes
    (IPAddr.ctor_raw BigEndian IPAddr.IPv4 [1; 2; 3; 4] IPAddr.Host)
  = IPAddr.v4_mapped_prefix ++ [1; 2; 3; 4] /\
  IPAddr.bytes
    (IPAddr.ctor_raw BigEndian IPAddr.IPv4 [1; 2; 3; 4] IPAddr.Host)
  <> IPAddr.v4_mapped_prefix ++ rev [1; 2; 3; 4] /\
  IPAddr.ctor_raw BigEndian IPAddr.IPv4 [1; 2; 3; 4] IPAddr.Host
  = IPAddr.ctor_raw BigEndian IPAddr.IPv4 [1; 2; 3; 4] IPAddr.Network /\
  ~ (forall host raw,
        Forall (fun b => 0 <= b < 256) raw -> List.length raw = 4%nat ->
        IPAddr.bytes (IPAddr.ctor_raw host IPAddr.IPv4 raw IPAddr.Host)
        = IPAddr.v4_mapped_prefix ++ rev raw).
Proof.
  assert (E : IPAddr.bytes
                (IPAddr.ctor_raw BigEndian IPAddr.IPv4 [1; 2; 3; 4] IPAddr.Host)
              = IPAddr.v4_mapped_prefix ++ [1; 2; 3; 4])
    by (vm_compute; reflexivity).
  split; [exact E|]. split; [rewrite E; discriminate|].
  split; [vm_compute; reflexivity|].
  intros H.
  specialize (H BigEndian [1; 2; 3; 4]
                ltac:(repeat constructor; lia) eq_refl).
  rewrite E in H. discriminate H.
Qed.

(** ** C5: text round trip *)

(** *** Fields and separators *)

Lemma contains_append (c : ascii) (x y : string) :
  contains c (x ++ y) = contains c x || contains c y.
Proof.
  induction x as [|a x IH]; simpl; [reflexivity|].
  rewrite IH, orb_assoc. reflexivity.
Qed.

Lemma split_on_not_nil (sep : ascii) (s : string) : split_on sep s <> [].
Proof.
  induction s as [|a s IH]; simpl; [discriminate|].
  destruct (Ascii.eqb a sep); [discriminate|].
  destruct (split_on sep s); [contradiction|discriminate].
Qed.

Lemma split_on_nosep (sep : ascii) (x : string) :
  contains sep x = false -> split_on sep x = [x].
Proof.
  induction x as [|a x IH]; simpl; [reflexivity|].
  intros H. apply orb_false_iff in H as [Ha Hx].
  rewrite Ha, (IH Hx). reflexivity.
Qed.

Lemma split_on_append (sep : ascii) (x y : string) :
  contains sep x = false ->
  split_on sep (x ++ String sep y) = x :: split_on sep y.
Proof.
  induction x as [|a x IH]; simpl.
  - intros _. rewrite Ascii.eqb_refl. reflexivity.
  - intros H. apply orb_false_iff in H as [Ha Hx].
    rewrite Ha, (IH Hx). reflexivity.
Qed.

(** Splitting undoes joining, for fields free of the separator. *)
Lemma split_on_concat (sep : ascii) (fs : list string) :
  fs <> [] -> Forall (fun f => contains sep f = false) fs ->
  split_on sep (String.concat (String sep EmptyString) fs) = fs.
Proof.
  intros N H. induction H as [|f fs Hf Hfs IH]; [contradiction|].
  destruct fs as [|f' fs].
  - simpl. apply split_on_nosep, Hf.
  - change (String.concat (String sep EmptyString) (f :: f' :: fs))
      with (f ++ String sep
                   (String.concat (String sep EmptyString) (f' :: fs)))%string.
    rewrite split_on_append by exact Hf. rewrite IH by discriminate.
    reflexivity.
Qed.

Lemma contains_concat (sep : ascii) (f f' : string) (fs : list string) :
  contains sep (String.concat (String sep EmptyString) (f :: f' :: fs)) = true.
Proof.
  change (String.concat (String sep EmptyString) (f :: f' :: fs))
    with (f ++ String sep
                 (String.concat (String sep EmptyString) (f' :: fs)))%string.
  rewrite contains_append. simpl. rewrite Ascii.eqb_refl, orb_true_r.
  reflexivity.
Qed.

Lemma contains_concat_false (sep c : ascii) (fs : list string) :
  Ascii.eqb sep c = false ->
  Forall (fun f => contains c f = false) fs ->
  contains c (String.concat (String sep EmptyString) fs) = false.
Proof.
  intros Hc H. induction H as [|f fs Hf Hfs IH]; [reflexivity|].
  destruct fs as [|f' fs]; [exact Hf|].
  change (String.concat (String sep EmptyString) (f :: f' :: fs))
    with (f ++ String sep
                 (String.concat (String sep EmptyString) (f' :: fs)))%string.
  rewrite contains_append, Hf. cbn [contains orb]. rewrite Hc, IH. reflexivity.
Qed.

Lemma append_assoc (x y z : string) :
  ((x ++ y) ++ z = x ++ (y ++ z))%string.
Proof. induction x as [|a x IH]; simpl; [reflexivity|]. rewrite IH. reflexivity. Qed.

Lemma concat_edge (sep : string) (fs : list string) :
  String.concat sep (edge fs) = String.concat sep fs.
Proof. destruct fs; reflexivity. Qed.

Lemma concat_app_cons (sep : string) (l1 : list string) (f : string)
    (l2 : list string) :
  l1 <> [] ->
  String.concat sep (l1 ++ f :: l2)
  = (String.concat sep l1 ++ sep ++ String.concat sep (f :: l2))%string.
Proof.
  intros N. induction l1 as [|x l1 IH]; [contradiction|].
  destruct l1 as [|x' l1].
  - reflexivity.
  - change (String.concat sep ((x :: x' :: l1) ++ f :: l2))
      with (x ++ sep ++ String.concat sep ((x' :: l1) ++ f :: l2))%string.
    rewrite IH by discriminate.
    change (String.concat sep (x :: x' :: l1))
      with (x ++ sep ++ String.concat sep (x' :: l1))%string.
    rewrite !append_assoc. reflexivity.
Qed.

Lemma edge_not_nil (fs : list string) : edge fs <> [].
Proof. destruct fs; discriminate. Qed.

(** The compressed text is the colon-join of the fields on the left of
    [::], one empty field, and the fields on the right. *)
Lemma compressed_text_fields (pre post : list string) :
  (String.concat ":" pre ++ "::" ++ String.concat ":" post)%string
  = String.concat ":" (edge pre ++ EmptyString :: edge post).
Proof.
  rewrite concat_app_cons by apply edge_not_nil.
  rewrite concat_edge. f_equal.
  destruct post as [|f post]; reflexivity.
Qed.

(** *** Octets and groups *)

Lemma check_from_spec (P : Z -> bool) (n : nat) (z0 : Z) :
  check_from P n z0 = true ->
  forall z, z0 <= z < z0 + Z.of_nat n -> P z = true.
Proof.
  revert z0; induction n as [|n IH]; intros z0 H z Hz; [lia|].
  cbn [check_from] in H. apply andb_true_iff in H as [H0 H1].
  destruct (Z.eq_dec z z0) as [->|Hne]; [exact H0|].
  apply (IH (z0 + 1) H1). lia.
Qed.

Lemma digit_char_hex (d : Z) :
  0 <= d < 16 ->
  hex_value (digit_char d) = Some d /\
  Ascii.eqb (digit_char d) ":" = false /\
  Ascii.eqb (digit_char d) "." = false.
Proof.
  intros R.
  pose proof (check_from_spec
                (fun d => match hex_value (digit_char d) with
                          | Some v => v =? d
                          | None => false
                          end
                          && negb (Ascii.eqb (digit_char d) ":")
                          && negb (Ascii.eqb (digit_char d) "."))
                16 0 eq_refl d ltac:(lia)) as H.
  cbv beta in H. rewrite !andb_true_iff, !negb_true_iff in H.
  destruct H as [[H0 H1] H2]. repeat split; try assumption.
  destruct (hex_value (digit_char d)); [|discriminate].
  apply Z.eqb_eq in H0. subst. reflexivity.
Qed.

Lemma digit_char_dec (d : Z) :
  0 <= d < 10 -> dec_value (digit_char d) = Some d.
Proof.
  intros R.
  pose proof (check_from_spec
                (fun d => match dec_value (digit_char d) with
                          | Some v => v =? d
                          | None => false
                          end)
                10 0 eq_refl d ltac:(lia)) as H.
  cbv beta in H. destruct (dec_value (digit_char d)); [|discriminate].
  apply Z.eqb_eq in H. subst. reflexivity.
Qed.

Ltac digit_range := Z.div_mod_to_equations; lia.

Ltac use_digit d :=
  let H := fresh "D" in
  assert (H : 0 <= d < 16) by digit_range;
  destruct (digit_char_hex d H) as (?Hv & ?Hc & ?Hd);
  try (let H10 := fresh "D" in
       assert (H10 : 0 <= d < 10) by digit_range;
       pose proof (digit_char_dec d H10)).

Lemma dec_octet_spec (b : Z) :
  0 <= b < 256 ->
  contains ":" (dec_octet b) = false /\ contains "." (dec_octet b) = false /\
  parse_octet (dec_octet b) = Ok b.
Proof.
  intros R. unfold dec_octet, parse_octet.
  destruct (Z.ltb_spec b 10); [|destruct (Z.ltb_spec b 100)];
    cbn [contains is_empty parse_digits orb].
  - use_digit b. rewrite Hc, Hd, H0. cbn [orb].
    destruct (Z.leb_spec (0 * 10 + b) 255); [|lia].
    repeat split; try (f_equal; lia).
  - use_digit (b / 10). use_digit (b mod 10).
    rewrite Hc, Hd, Hc0, Hd0, H1, H2. cbn [orb].
    destruct (Z.leb_spec ((0 * 10 + b / 10) * 10 + b mod 10) 255);
      [|digit_range].
    repeat split; try (f_equal; digit_range).
  - use_digit (b / 100). use_digit (b / 10 mod 10). use_digit (b mod 10).
    rewrite Hc, Hd, Hc0, Hd0, Hc1, Hd1, H1, H2, H3. cbn [orb].
    destruct (Z.leb_spec
                (((0 * 10 + b / 100) * 10 + b / 10 mod 10) * 10 + b mod 10)
                255); [|digit_range].
    repeat split; try (f_equal; digit_range).
Qed.

Lemma hex_group_spec (g : Z) :
  0 <= g < 65536 ->
  is_empty (hex_group g) = false /\
  contains ":" (hex_group g) = false /\ contains "." (hex_group g) = false /\
  parse_group (hex_group g) = Ok g.
Proof.
  intros R. unfold hex_group, parse_group.
  destruct (Z.ltb_spec g 16);
    [|destruct (Z.ltb_spec g 256); [|destruct (Z.ltb_spec g 4096)]];
    cbn [contains is_empty parse_digits orb].
  - use_digit g. rewrite Hc, Hd, Hv. cbn [orb].
    destruct (Z.leb_spec (0 * 16 + g) 65535); [|lia].
    repeat split; try (f_equal; lia).
  - use_digit (g / 16). use_digit (g mod 16).
    rewrite Hc, Hd, Hc0, Hd0, Hv, Hv0. cbn [orb].
    destruct (Z.leb_spec ((0 * 16 + g / 16) * 16 + g mod 16) 65535);
      [|digit_range].
    repeat split; try (f_equal; digit_range).
  - use_digit (g / 256). use_digit (g / 16 mod 16). use_digit (g mod 16).
    rewrite Hc, Hd, Hc0, Hd0, Hc1, Hd1, Hv, Hv0, Hv1. cbn [orb].
    destruct (Z.leb_spec
                (((0 * 16 + g / 256) * 16 + g / 16 mod 16) * 16 + g mod 16)
                65535); [|digit_range].
    repeat split; try (f_equal; digit_range).
  - use_digit (g / 4096). use_digit (g / 256 mod 16).
    use_digit (g / 16 mod 16). use_digit (g mod 16).
    rewrite Hc, Hd, Hc0, Hd0, Hc1, Hd1, Hc2, Hd2, Hv, Hv0, Hv1, Hv2.
    cbn [orb].
    destruct (Z.leb_spec
                ((((0 * 16 + g / 4096) * 16 + g / 256 mod 16) * 16
                  + g / 16 mod 16) * 16 + g mod 16) 65535); [|digit_range].
    repeat split; try (f_equal; digit_range).
Qed.

(** *** The zero run *)

Lemma zero_run_spec (gs : list Z) :
  firstn (zero_run gs) gs = repeat 0 (zero_run gs).
Proof.
  induction gs as [|g gs IH]; [reflexivity|].
  cbn [zero_run]. destruct (Z.eqb_spec g 0); [|reflexivity].
  subst g. cbn [firstn repeat]. rewrite IH. reflexivity.
Qed.

(** The run reported by [longest_zero_run] consists of zero groups. *)
Lemma longest_zero_run_spec (gs : list Z) (i s n : nat) :
  longest_zero_run i gs = (s, n) ->
  (i <= s)%nat /\ firstn n (skipn (s - i) gs) = repeat 0 n.
Proof.
  revert i s n; induction gs as [|g gs IH]; intros i s n.
  - cbn [longest_zero_run]. intros E; injection E as <- <-.
    split; [lia|]. rewrite skipn_nil. reflexivity.
  - cbn [longest_zero_run].
    destruct (longest_zero_run (S i) gs) as [s' n'] eqn:E'.
    destruct (IH _ _ _ E') as [Hs Hz].
    destruct (n' <=? zero_run (g :: gs))%nat.
    + intros E; injection E as <- <-. split; [lia|].
      rewrite Nat.sub_diag. cbn [skipn]. exact (zero_run_spec (g :: gs)).
    + intros E; injection E as <- <-. split; [lia|].
      replace (s' - i)%nat with (S (s' - S i)) by lia. cbn [skipn]. exact Hz.
Qed.

Lemma longest_zero_run_split (gs : list Z) (s n : nat) :
  longest_zero_run 0 gs = (s, n) ->
  gs = firstn s gs ++ repeat 0 n ++ skipn (s + n) gs.
Proof.
  intros E. apply longest_zero_run_spec in E as [_ Hz].
  rewrite Nat.sub_0_r in Hz. rewrite <- Hz.
  rewrite Nat.add_comm, <- skipn_skipn, !firstn_skipn. reflexivity.
Qed.

Lemma longest_zero_run_cons (i : nat) (g : Z) (gs : list Z) :
  longest_zero_run i (g :: gs)
  = let (s, n) := longest_zero_run (S i) gs in
    if (n <=? zero_run (g :: gs))%nat then (i, zero_run (g :: gs)) else (s, n).
Proof. reflexivity. Qed.

(** The run reported by [longest_zero_run] is a longest one, and no run
    that starts further left is as long. *)
Lemma longest_zero_run_max (gs : list Z) (i s n : nat) :
  longest_zero_run i gs = (s, n) ->
  (forall j, (zero_run (skipn j gs) <= n)%nat) /\
  (forall j, (j < s - i)%nat -> (zero_run (skipn j gs) < n)%nat).
Proof.
  revert i s n; induction gs as [|g gs IH]; intros i s n.
  - cbn [longest_zero_run]. intros E; injection E as <- <-.
    split; intros j; [rewrite skipn_nil; cbn; lia | lia].
  - rewrite longest_zero_run_cons.
    destruct (longest_zero_run (S i) gs) as [s' n'] eqn:E'.
    destruct (IH _ _ _ E') as [Hmax Hleft].
    destruct (longest_zero_run_spec _ _ _ _ E') as [Hs _].
    set (here := zero_run (g :: gs)).
    destruct (Nat.leb_spec n' here) as [Hle|Hgt];
      intros E; injection E as <- <-.
    + split; intros j; [|lia].
      destruct j as [|j]; [cbn [skipn]; fold here; lia|].
      cbn [skipn]. specialize (Hmax j). lia.
    + split; intros j.
      * destruct j as [|j]; [cbn [skipn]; fold here; lia|].
        cbn [skipn]. apply Hmax.
      * intros Hj. destruct j as [|j]; [cbn [skipn]; fold here; lia|].
        cbn [skipn]. apply Hleft. lia.
Qed.

(** *** Edges *)

Lemma strip_leading_edge (xs ys : list string) :
  Forall (fun f => is_empty f = false) xs ->
  strip_leading (edge xs ++ EmptyString :: ys) = Ok (xs ++ EmptyString :: ys).
Proof.
  intros H. destruct H as [|x xs Hx Hxs]; [reflexivity|].
  cbn [edge app strip_leading]. rewrite Hx. reflexivity.
Qed.

Lemma rev_edge (fs : list string) : rev (edge fs) = edge (rev fs).
Proof.
  destruct fs as [|f fs]; [reflexivity|].
  cbn [edge rev]. destruct (rev fs); reflexivity.
Qed.

Lemma strip_trailing_edge (xs ys : list string) :
  Forall (fun f => is_empty f = false) ys ->
  strip_trailing (xs ++ EmptyString :: edge ys) = Ok (xs ++ EmptyString :: ys).
Proof.
  intros H. unfold strip_trailing.
  rewrite rev_app_distr. cbn [rev]. rewrite rev_edge, <- app_assoc.
  cbn [app]. rewrite strip_leading_edge by (apply Forall_rev, H).
  cbn [bind]. rewrite rev_app_distr. cbn [rev].
  rewrite !rev_involutive, <- app_assoc. reflexivity.
Qed.

Lemma strip_leading_groups (f : string) (fs : list string) :
  is_empty f = false -> strip_leading (f :: fs) = Ok (f :: fs).
Proof. intros H. cbn [strip_leading]. rewrite H. reflexivity. Qed.

(** *** Fields to groups *)

Lemma parse_fields_groups (gs : list Z) (rest : list string) :
  Forall (fun g => 0 <= g < 65536) gs ->
  parse_fields (map hex_group gs ++ rest)
  = (items <- parse_fields rest ;; Ok (map Some gs ++ items)).
Proof.
  intros H. induction H as [|g gs Hg Hgs IH].
  - cbn [map app]. destruct (parse_fields rest); reflexivity.
  - destruct (hex_group_spec g Hg) as (He & _ & Hd & Hp).
    cbn [map app parse_fields]. rewrite He, Hd, Hp, IH. cbn [bind].
    destruct (parse_fields rest); reflexivity.
Qed.

Lemma parse_fields_compressed (pre post : list Z) :
  Forall (fun g => 0 <= g < 65536) pre ->
  Forall (fun g => 0 <= g < 65536) post ->
  parse_fields (map hex_group pre ++ EmptyString :: map hex_group post)
  = Ok (map Some pre ++ None :: map Some post).
Proof.
  intros H1 H2. rewrite parse_fields_groups by exact H1.
  cbn [parse_fields is_empty].
  rewrite <- (app_nil_r (map hex_group post)).
  rewrite parse_fields_groups by exact H2. cbn [parse_fields bind].
  rewrite app_nil_r. reflexivity.
Qed.

Lemma filter_is_group_Some (gs : list Z) :
  filter is_group (map Some gs) = map Some gs.
Proof. induction gs as [|g gs IH]; [reflexivity|]. cbn. rewrite IH. reflexivity. Qed.

Lemma flat_map_Some (fill : list Z) (gs : list Z) :
  flat_map (fun it : option Z => match it with
                                 | Some g => [g]
                                 | None => fill
                                 end) (map Some gs) = gs.
Proof. induction gs as [|g gs IH]; [reflexivity|]. cbn. rewrite IH. reflexivity. Qed.

Lemma expand_compressed (pre post : list Z) :
  (List.length pre + List.length post <= 7)%nat ->
  expand (map Some pre ++ None :: map Some post)
  = Ok (pre ++ repeat 0 (8 - (List.length pre + List.length post)) ++ post).
Proof.
  intros H. unfold expand.
  rewrite filter_app. cbn [filter is_group].
  rewrite !filter_is_group_Some, !length_app. cbn [List.length].
  rewrite !length_map.
  replace (List.length pre + S (List.length post)
           - (List.length pre + List.length post))%nat with 1%nat by lia.
  destruct (Nat.leb_spec (List.length pre + List.length post) 7); [|lia].
  rewrite flat_map_app. cbn [flat_map]. rewrite !flat_map_Some. reflexivity.
Qed.

Lemma expand_full (gs : list Z) :
  List.length gs = 8%nat -> expand (map Some gs) = Ok gs.
Proof.
  intros H. unfold expand.
  rewrite filter_is_group_Some, !length_map, H. cbn [Nat.sub Nat.eqb].
  rewrite flat_map_Some. reflexivity.
Qed.

(** *** Bytes and groups *)

Lemma groups_of_bytes_spec (n : nat) (l : list Z) :
  List.length l = (2 * n)%nat -> Forall (fun b => 0 <= b < 256) l ->
  List.length (groups_of_bytes l) = n /\
  Forall (fun g => 0 <= g < 65536) (groups_of_bytes l) /\
  bytes_of_groups (groups_of_bytes l) = l.
Proof.
  revert l; induction n as [|n IH]; intros l L R.
  - destruct l; [|discriminate L]. repeat split. constructor.
  - destruct l as [|hi [|lo r]]; try (cbn in L; lia).
    pose proof (Forall_inv R) as Rhi.
    pose proof (Forall_inv (Forall_inv_tail R)) as Rlo. cbv beta in Rhi, Rlo.
    destruct (IH r) as (L' & R' & B').
    + cbn [List.length] in L. lia.
    + exact (Forall_inv_tail (Forall_inv_tail R)).
    + cbn [groups_of_bytes List.length bytes_of_groups flat_map app].
      fold (bytes_of_groups (groups_of_bytes r)). rewrite B', L'.
      repeat split.
      * constructor; [lia|exact R'].
      * f_equal; [|f_equal]; Z.div_mod_to_equations; lia.
Qed.

(** *** Formatting, then parsing *)

Lemma contains_concat_two (sep : ascii) (fs : list string) :
  (2 <= List.length fs)%nat ->
  contains sep (String.concat (String sep EmptyString) fs) = true.
Proof.
  destruct fs as [|f [|f' fs]]; cbn [List.length]; try lia.
  intros _. apply contains_concat.
Qed.

Lemma hex_fields (gs : list Z) :
  Forall (fun g => 0 <= g < 65536) gs ->
  Forall (fun f => is_empty f = false) (map hex_group gs) /\
  Forall (fun f => contains ":" f = false) (map hex_group gs).
Proof.
  intros H. split; apply Forall_map;
    (eapply Forall_impl; [|exact H]); intros g Hg;
    destruct (hex_group_spec g Hg) as (He & Hc & _); assumption.
Qed.

Lemma edge_nocolon (fs : list string) :
  Forall (fun f => contains ":" f = false) fs ->
  Forall (fun f => contains ":" f = false) (edge fs).
Proof. intros H. destruct fs; [repeat constructor|exact H]. Qed.

Lemma edge_length (fs : list string) : (1 <= List.length (edge fs))%nat.
Proof. destruct fs; cbn; lia. Qed.

Lemma Forall_take {A : Type} (P : A -> Prop) (n : nat) (l : list A) :
  Forall P l -> Forall P (firstn n l).
Proof.
  intros H. rewrite <- (firstn_skipn n l) in H.
  apply Forall_app in H as [H _]. exact H.
Qed.

Lemma Forall_drop {A : Type} (P : A -> Prop) (n : nat) (l : list A) :
  Forall P l -> Forall P (skipn n l).
Proof.
  intros H. rewrite <- (firstn_skipn n l) in H.
  apply Forall_app in H as [_ H]. exact H.
Qed.

(** Parsing the text of eight groups gives the groups back, and the text
    has a colon. *)
Lemma parse_format_v6 (gs : list Z) :
  List.length gs = 8%nat -> Forall (fun g => 0 <= g < 65536) gs ->
  contains ":" (format_v6 gs) = true /\ parse_v6 (format_v6 gs) = Ok gs.
Proof.
  intros L R. unfold format_v6.
  destruct (longest_zero_run 0 gs) as [s n] eqn:E.
  pose proof (longest_zero_run_split gs s n E) as S.
  destruct (Nat.leb_spec 2 n) as [Hn|Hn].
  - set (pre := firstn s gs) in *. set (post := skipn (s + n) gs) in *.
    assert (Rpre : Forall (fun g => 0 <= g < 65536) pre)
      by (apply Forall_take, R).
    assert (Rpost : Forall (fun g => 0 <= g < 65536) post)
      by (apply Forall_drop, R).
    destruct (hex_fields pre Rpre) as [Epre Cpre].
    destruct (hex_fields post Rpost) as [Epost Cpost].
    assert (Len : (List.length pre + n + List.length post = 8)%nat).
    { pose proof (f_equal (@List.length Z) S) as Len0.
      rewrite !length_app, repeat_length, L in Len0. lia. }
    rewrite compressed_text_fields. split.
    + apply contains_concat_two. rewrite length_app. cbn [List.length].
      pose proof (edge_length (map hex_group pre)).
      pose proof (edge_length (map hex_group post)). lia.
    + unfold parse_v6. rewrite split_on_concat.
      * rewrite strip_leading_edge by exact Epre. cbn [bind].
        rewrite strip_trailing_edge by exact Epost. cbn [bind].
        rewrite parse_fields_compressed by assumption. cbn [bind].
        rewrite expand_compressed by lia.
        replace (8 - (List.length pre + List.length post))%nat with n by lia.
        rewrite <- S. reflexivity.
      * intros C. apply app_eq_nil in C as [C _].
        exact (edge_not_nil _ C).
      * apply Forall_app. split; [apply edge_nocolon, Cpre|].
        constructor; [reflexivity|apply edge_nocolon, Cpost].
  - destruct (hex_fields gs R) as [Egs Cgs]. split.
    + apply contains_concat_two. rewrite length_map. lia.
    + unfold parse_v6. rewrite split_on_concat.
      * destruct gs as [|g gs]; [discriminate L|].
        cbn [map]. rewrite strip_leading_groups
          by exact (Forall_inv Egs).
        cbn [bind]. unfold strip_trailing.
        change (hex_group g :: map hex_group gs)
          with (map hex_group (g :: gs)).
        assert (Hrev : exists f fs, rev (map hex_group (g :: gs)) = f :: fs
                                    /\ is_empty f = false).
        { pose proof (Forall_rev Egs) as Er.
          destruct (rev (map hex_group (g :: gs))) as [|f fs] eqn:Erev.
          - apply (f_equal (@List.length string)) in Erev.
            rewrite length_rev, length_map in Erev. discriminate Erev.
          - exists f, fs. split; [reflexivity|exact (Forall_inv Er)]. }
        destruct Hrev as (f & fs & Erev & Ef).
        rewrite Erev, strip_leading_groups by exact Ef. cbn [bind].
        rewrite <- Erev, rev_involutive.
        rewrite <- (app_nil_r (map hex_group (g :: gs))).
        rewrite parse_fields_groups by exact R. cbn [parse_fields bind].
        rewrite app_nil_r. apply expand_full, L.
      * destruct gs; [discriminate L|discriminate].
      * exact Cgs.
Qed.

Lemma parse_format_v4 (o0 o1 o2 o3 : Z) :
  0 <= o0 < 256 -> 0 <= o1 < 256 -> 0 <= o2 < 256 -> 0 <= o3 < 256 ->
  contains ":" (format_v4 [o0; o1; o2; o3]) = false /\
  parse_v4 (format_v4 [o0; o1; o2; o3]) = Ok [o0; o1; o2; o3].
Proof.
  intros R0 R1 R2 R3.
  destruct (dec_octet_spec o0 R0) as (C0 & D0 & P0).
  destruct (dec_octet_spec o1 R1) as (C1 & D1 & P1).
  destruct (dec_octet_spec o2 R2) as (C2 & D2 & P2).
  destruct (dec_octet_spec o3 R3) as (C3 & D3 & P3).
  unfold format_v4. cbn [map]. split.
  - apply contains_concat_false; [reflexivity|]. repeat constructor; assumption.
  - unfold parse_v4. rewrite split_on_concat;
      [|discriminate|repeat constructor; assumption].
    rewrite P0, P1, P2, P3. reflexivity.
Qed.

(** C5. For every address [a], parsing the text that [AsString()]
    produces for it succeeds and gives [a] back, whether the text is
    dotted-decimal (IPv4 family) or compressed hex (IPv6 family). *)
Theorem Init_AsString_roundtrip (a : IPAddr.t) :
  IPAddr.wf a = true ->
  IPAddr.Init (IPAddr.AsString a) = IPAddr.Parsed a.
Proof.
  intros Hwf. unfold IPAddr.Init, IPAddr.AsString.
  destruct (IPAddr.is_IPv4 a) eqn:F.
  - apply is_IPv4_true in F. apply (family_IPv4_iff a Hwf) in F.
    explode a Hwf. cbn [firstn skipn] in *.
    unfold IPAddr.v4_mapped_prefix in F.
    injection F as -> -> -> -> -> -> -> -> -> -> -> ->.
    match goal with
    | |- context [format_v4 [?o0; ?o1; ?o2; ?o3]] =>
        destruct (parse_format_v4 o0 o1 o2 o3) as [C P]; try assumption
    end.
    rewrite C, P. reflexivity.
  - destruct (groups_of_bytes_spec 8 (IPAddr.bytes a)) as (L & R & B).
    + apply wf_length, Hwf.
    + apply wf_range, Hwf.
    + destruct (parse_format_v6 _ L R) as [C P].
      rewrite C, P. cbn [bind]. rewrite B. f_equal. apply bytes_inj. reflexivity.
Qed.

Lemma Init_AsString_roundtrip_witness :
  IPAddr.wf (IPAddr.of_bytes
               [32; 1; 13; 184; 0; 0; 0; 0; 0; 1; 0; 0; 0; 0; 0; 1]) = true /\
  IPAddr.Init
    (IPAddr.AsString
       (IPAddr.of_bytes [32; 1; 13; 184; 0; 0; 0; 0; 0; 1; 0; 0; 0; 0; 0; 1]))
  = IPAddr.Parsed
      (IPAddr.of_bytes [32; 1; 13; 184; 0; 0; 0; 0; 0; 1; 0; 0; 0; 0; 0; 1]).
Proof.
  split; [reflexivity|].
  apply Init_AsString_roundtrip. reflexivity.
Defined.

(** Scenario 4 of the design document, and the tie-break of the
    compression: the leftmost of the longest zero runs is replaced. *)
Example AsString_loopback6 :
  IPAddr.AsString (IPAddr.of_bytes IPAddr.loopback6) = "::1"%string.
Proof. reflexivity. Qed.

Example AsString_leftmost_run :
  IPAddr.AsString
    (IPAddr.of_bytes [32; 1; 13; 184; 0; 0; 0; 0; 0; 1; 0; 0; 0; 0; 0; 1])
  = "2001:db8::1:0:0:1"%string.
Proof. reflexivity. Qed.

Example AsString_IPv4 :
  IPAddr.AsString (IPAddr.ctor_in4 [192; 168; 1; 2]) = "192.168.1.2"%string.
Proof. reflexivity. Qed.

Example Init_range_error :
  IPAddr.Init "192.168.1.256"
  = IPAddr.ParseError Range "192.168.1.256"%string.
Proof. reflexivity. Qed.

Example Init_two_gaps :
  IPAddr.Init "1::2::3" = IPAddr.ParseError Syntax "1::2::3"%string.
Proof. reflexivity. Qed.

(** * Further properties of IPAddr.h *)

(** ** Byte access and the constructors *)

Lemma ctor_raw_IPv6_Network (host : Endianness) (raw : list Z) :
  IPAddr.bytes (IPAddr.ctor_raw host IPAddr.IPv6 raw IPAddr.Network)
  = firstn 16 raw.
Proof.
  unfold IPAddr.ctor_raw, memcpy, IPAddr.bytes, IPAddr.of_bytes.
  cbn [repeat firstn skipn app Nat.add IPAddr.in6 s6_addr].
  apply app_nil_r.
Qed.

(** X1. What [GetBytes] exposes is enough to rebuild the address: the
    raw-byte constructor, given the address' family, the bytes behind the
    returned pointer and the [Network] flag, gives the address back.  The
    word count is 1 exactly for IPv4-family addresses and 4 otherwise. *)
Theorem GetBytes_ctor_raw_roundtrip (host : Endianness) (a : IPAddr.t) :
  IPAddr.wf a = true ->
  IPAddr.ctor_raw host (IPAddr.family a)
    (IPAddr.words_at a (IPAddr.GetBytes a)) IPAddr.Network = a /\
  (snd (IPAddr.GetBytes a) = 1%nat <-> IPAddr.family a = IPAddr.IPv4) /\
  (snd (IPAddr.GetBytes a) = 4%nat <-> IPAddr.family a = IPAddr.IPv6) /\
  List.length (IPAddr.words_at a (IPAddr.GetBytes a))
  = (4 * snd (IPAddr.GetBytes a))%nat.
Proof.
  intros Hwf. unfold IPAddr.GetBytes, IPAddr.words_at.
  destruct (IPAddr.is_IPv4 a) eqn:F; cbn [fst snd].
  - apply is_IPv4_true in F. rewrite F.
    pose proof (proj1 (family_IPv4_iff a Hwf) F) as P.
    explode a Hwf. cbn [firstn skipn Nat.mul Nat.add List.length] in *.
    unfold IPAddr.v4_mapped_prefix in P.
    injection P as -> -> -> -> -> -> -> -> -> -> -> ->.
    repeat split; try reflexivity; try discriminate; intros; congruence.
  - apply is_IPv4_false in F. rewrite F. split.
    + apply bytes_inj. rewrite ctor_raw_IPv6_Network.
      rewrite firstn_firstn. cbn [Nat.min Nat.mul Nat.add skipn].
      rewrite <- (wf_length a Hwf). apply firstn_all.
    + cbn [skipn]. rewrite length_firstn, (wf_length a Hwf).
      repeat split; try reflexivity; try discriminate; intros; congruence.
Qed.

Lemma GetBytes_ctor_raw_roundtrip_witness :
  IPAddr.wf (IPAddr.ctor_in4 [192; 168; 1; 2]) = true /\
  IPAddr.ctor_raw BigEndian
    (IPAddr.family (IPAddr.ctor_in4 [192; 168; 1; 2]))
    (IPAddr.words_at (IPAddr.ctor_in4 [192; 168; 1; 2])
       (IPAddr.GetBytes (IPAddr.ctor_in4 [192; 168; 1; 2])))
    IPAddr.Network
  = IPAddr.ctor_in4 [192; 168; 1; 2].
Proof.
  split; [reflexivity|].
  exact (proj1 (GetBytes_ctor_raw_roundtrip BigEndian
                  (IPAddr.ctor_in4 [192; 168; 1; 2]) eq_refl)).
Defined.

(** X2. [CopyIPv6] writes the 16 bytes of the address at the start of the
    caller's buffer and nothing else; building an address from that
    buffer with family [IPv6] and the [Network] flag gives the address
    back, so that an IPv4-family address stays IPv4-family although the
    constructor was told [IPv6]. *)
Theorem CopyIPv6_roundtrip (host : Endianness) (a : IPAddr.t) (dst : list Z) :
  IPAddr.wf a = true -> (16 <= List.length dst)%nat ->
  firstn 16 (IPAddr.CopyIPv6 a dst) = IPAddr.bytes a /\
  skipn 16 (IPAddr.CopyIPv6 a dst) = skipn 16 dst /\
  List.length (IPAddr.CopyIPv6 a dst) = List.length dst /\
  IPAddr.ctor_raw host IPAddr.IPv6 (IPAddr.CopyIPv6 a dst) IPAddr.Network = a /\
  IPAddr.family
    (IPAddr.ctor_raw host IPAddr.IPv6 (IPAddr.CopyIPv6 a dst) IPAddr.Network)
  = IPAddr.family a.
Proof.
  intros Hwf Hd. pose proof (wf_length a Hwf) as L.
  assert (A : firstn 16 (IPAddr.bytes a) = IPAddr.bytes a)
    by (rewrite <- L; apply firstn_all).
  assert (E : IPAddr.CopyIPv6 a dst = IPAddr.bytes a ++ skipn 16 dst).
  { unfold IPAddr.CopyIPv6, memcpy. rewrite A. reflexivity. }
  assert (E16 : firstn 16 (IPAddr.CopyIPv6 a dst) = IPAddr.bytes a).
  { rewrite E, firstn_app, L, A. change (16 - 16)%nat with 0%nat.
    rewrite firstn_O. apply app_nil_r. }
  assert (R : IPAddr.ctor_raw host IPAddr.IPv6 (IPAddr.CopyIPv6 a dst)
                IPAddr.Network = a).
  { apply bytes_inj. rewrite ctor_raw_IPv6_Network. exact E16. }
  repeat split.
  - exact E16.
  - rewrite E, skipn_app, L. change (16 - 16)%nat with 0%nat.
    rewrite skipn_O, (skipn_all2 (IPAddr.bytes a)) by lia. reflexivity.
  - rewrite E, length_app, length_skipn, L. lia.
  - exact R.
  - rewrite R. reflexivity.
Qed.

Lemma CopyIPv6_roundtrip_witness :
  IPAddr.wf (IPAddr.ctor_in4 [10; 0; 0; 1]) = true /\
  (16 <= List.length (repeat 7 20))%nat /\
  IPAddr.family
    (IPAddr.ctor_raw LittleEndian IPAddr.IPv6
       (IPAddr.CopyIPv6 (IPAddr.ctor_in4 [10; 0; 0; 1]) (repeat 7 20))
       IPAddr.Network)
  = IPAddr.family (IPAddr.ctor_in4 [10; 0; 0; 1]).
Proof.
  split; [reflexivity|]. split; [simpl; lia|].
  exact (proj2 (proj2 (proj2 (proj2
           (CopyIPv6_roundtrip LittleEndian (IPAddr.ctor_in4 [10; 0; 0; 1])
              (repeat 7 20) eq_refl ltac:(simpl; lia)))))).
Defined.

(** X3. An address built from an [in4_addr] is well formed and
    IPv4-family; [GetBytes] on it returns one word, which holds exactly
    the four input bytes; and it is the address the raw-byte constructor
    builds from the same bytes with the [Network] flag. *)
Theorem ctor_in4_GetBytes (in4 : list Z) :
  List.length in4 = 4%nat -> Forall (fun b => 0 <= b < 256) in4 ->
  IPAddr.wf (IPAddr.ctor_in4 in4) = true /\
  IPAddr.family (IPAddr.ctor_in4 in4) = IPAddr.IPv4 /\
  IPAddr.GetBytes (IPAddr.ctor_in4 in4) = (12%nat, 1%nat) /\
  IPAddr.words_at (IPAddr.ctor_in4 in4) (IPAddr.GetBytes (IPAddr.ctor_in4 in4))
  = in4 /\
  (forall host,
      IPAddr.ctor_raw host IPAddr.IPv4 in4 IPAddr.Network = IPAddr.ctor_in4 in4).
Proof.
  intros L R.
  do 4 (destruct in4 as [|? in4]; [discriminate L|]).
  destruct in4; [|discriminate L]. range_hyps R.
  split.
  { apply wf_intro; [reflexivity|].
    repeat constructor; cbv beta; lia. }
  repeat split; reflexivity.
Qed.

Lemma ctor_in4_GetBytes_witness :
  List.length [127; 0; 0; 1] = 4%nat /\
  IPAddr.words_at (IPAddr.ctor_in4 [127; 0; 0; 1])
    (IPAddr.GetBytes (IPAddr.ctor_in4 [127; 0; 0; 1])) = [127; 0; 0; 1].
Proof.
  split; [reflexivity|].
  refine (proj1 (proj2 (proj2 (proj2
            (ctor_in4_GetBytes [127; 0; 0; 1] eq_refl _))))).
  repeat constructor; lia.
Defined.

Lemma wf_of_bytes (a : IPAddr.t) :
  List.length (IPAddr.bytes a) = 16%nat ->
  Forall (fun b => 0 <= b < 256) (IPAddr.bytes a) ->
  IPAddr.wf a = true.
Proof.
  intros L R. replace a with (IPAddr.of_bytes (IPAddr.bytes a))
    by (apply bytes_inj; reflexivity).
  apply wf_intro; assumption.
Qed.

(** X4. Whatever the host, the family and the order flag, the raw-byte
    constructor yields sixteen bytes, each within a byte's range. *)
Theorem ctor_raw_wf (host : Endianness) (family : IPAddr.Family)
    (raw : list Z) (order : IPAddr.ByteOrder) :
  Forall (fun b => 0 <= b < 256) raw ->
  List.length raw
  = (match family with IPAddr.IPv4 => 4 | IPAddr.IPv6 => 16 end)%nat ->
  IPAddr.wf (IPAddr.ctor_raw host family raw order) = true.
Proof.
  intros R L. destruct family.
  - do 4 (destruct raw as [|? raw]; [discriminate L|]).
    destruct raw; [|discriminate L]. range_hyps R.
    apply wf_of_bytes; destruct order;
      try rewrite ctor_raw_IPv4_Host by assumption;
      try (destruct host; reflexivity);
      try reflexivity;
      destruct host; repeat constructor; cbv beta; lia.
  - do 16 (destruct raw as [|? raw]; [discriminate L|]).
    destruct raw; [|discriminate L]. pose proof R as R'. range_hyps R'.
    apply wf_of_bytes; destruct order;
      try rewrite ctor_raw_IPv6_Host by assumption;
      try (destruct host; reflexivity);
      try reflexivity;
      try exact R;
      destruct host; repeat constructor; cbv beta; lia.
Qed.

Lemma ctor_raw_wf_witness :
  Forall (fun b => 0 <= b < 256) [1; 2; 3; 4] /\
  IPAddr.wf (IPAddr.ctor_raw LittleEndian IPAddr.IPv4 [1; 2; 3; 4] IPAddr.Host)
  = true.
Proof.
  assert (R : Forall (fun b => 0 <= b < 256) [1; 2; 3; 4])
    by (repeat constructor; lia).
  split; [exact R|].
  exact (ctor_raw_wf LittleEndian IPAddr.IPv4 [1; 2; 3; 4] IPAddr.Host R eq_refl).
Defined.

Lemma word_bytes_range (host : Endianness) (w : Z) :
  Forall (fun b => 0 <= b < 256) (word_bytes host w).
Proof.
  unfold word_bytes. change (2 ^ 8) with 256.
  destruct host; repeat constructor; apply Z.mod_pos_bound; lia.
Qed.

Lemma word_bytes_swap (host : Endianness) (w : Z) :
  word_bytes BigEndian w
  = match host with
    | LittleEndian => rev (word_bytes host w)
    | BigEndian => word_bytes host w
    end.
Proof. destruct host; reflexivity. Qed.

Lemma load32_word_bytes (host : Endianness) (w : Z) :
  0 <= w < 2 ^ 32 -> load32 host (word_bytes host w) 0 = w.
Proof.
  intros R. unfold load32, word_bytes.
  change (2 ^ 8) with 256 in *. change (2 ^ 16) with 65536 in *.
  change (2 ^ 24) with 16777216 in *. change (2 ^ 32) with 4294967296 in *.
  destruct host; cbn [nth Nat.add]; Z.div_mod_to_equations; lia.
Qed.

(** X5. With the [Host] flag the constructor stores, for each 32-bit
    integer the caller holds in its own byte order, the bytes of that
    integer most significant first: the stored address is the same on a
    little-endian and on a big-endian host. *)
Theorem ctor_raw_Host_network_order (host : Endianness) :
  (forall w, 0 <= w < 2 ^ 32 -> load32 host (word_bytes host w) 0 = w) /\
  (forall w,
      IPAddr.bytes
        (IPAddr.ctor_raw host IPAddr.IPv4 (word_bytes host w) IPAddr.Host)
      = IPAddr.v4_mapped_prefix ++ word_bytes BigEndian w) /\
  (forall w0 w1 w2 w3,
      IPAddr.bytes
        (IPAddr.ctor_raw host IPAddr.IPv6
           (word_bytes host w0 ++ word_bytes host w1
            ++ word_bytes host w2 ++ word_bytes host w3) IPAddr.Host)
      = word_bytes BigEndian w0 ++ word_bytes BigEndian w1
        ++ word_bytes BigEndian w2 ++ word_bytes BigEndian w3).
Proof.
  split; [apply load32_word_bytes|]. split.
  - intros w. pose proof (word_bytes_range host w) as R.
    destruct host; unfold word_bytes in *; range_hyps R;
      rewrite ctor_raw_IPv4_Host by assumption; reflexivity.
  - intros w0 w1 w2 w3.
    pose proof (word_bytes_range host w0) as R0.
    pose proof (word_bytes_range host w1) as R1.
    pose proof (word_bytes_range host w2) as R2.
    pose proof (word_bytes_range host w3) as R3.
    pose proof (proj2 (Forall_app _ _ _)
                  (conj R0 (proj2 (Forall_app _ _ _)
                     (conj R1 (proj2 (Forall_app _ _ _) (conj R2 R3))))))
      as R.
    destruct host; unfold word_bytes in *; cbn [app] in *;
      rewrite ctor_raw_IPv6_Host by exact R; reflexivity.
Qed.

Lemma ctor_raw_IPv4_family (host : Endianness) (b0 b1 b2 b3 : Z)
    (order : IPAddr.ByteOrder) :
  0 <= b0 < 256 -> 0 <= b1 < 256 -> 0 <= b2 < 256 -> 0 <= b3 < 256 ->
  IPAddr.family (IPAddr.ctor_raw host IPAddr.IPv4 [b0; b1; b2; b3] order)
  = IPAddr.IPv4.
Proof.
  intros R0 R1 R2 R3. unfold IPAddr.family. destruct order; [|reflexivity].
  rewrite ctor_raw_IPv4_Host by assumption. destruct host; reflexivity.
Qed.

(** X6. Converting twice is converting not at all: an address built with
    the [Host] flag from the bytes of an address that was itself built
    with the [Host] flag is the address built from the original bytes with
    the [Network] flag. *)
Theorem ctor_raw_Host_involutive (host : Endianness) (raw : list Z) :
  Forall (fun b => 0 <= b < 256) raw ->
  (List.length raw = 4%nat ->
   IPAddr.ctor_raw host IPAddr.IPv4
     (IPAddr.words_at
        (IPAddr.ctor_raw host IPAddr.IPv4 raw IPAddr.Host)
        (IPAddr.GetBytes (IPAddr.ctor_raw host IPAddr.IPv4 raw IPAddr.Host)))
     IPAddr.Host
   = IPAddr.ctor_raw host IPAddr.IPv4 raw IPAddr.Network) /\
  (List.length raw = 16%nat ->
   IPAddr.ctor_raw host IPAddr.IPv6
     (IPAddr.bytes (IPAddr.ctor_raw host IPAddr.IPv6 raw IPAddr.Host))
     IPAddr.Host
   = IPAddr.ctor_raw host IPAddr.IPv6 raw IPAddr.Network).
Proof.
  intros R. split; intros L.
  - do 4 (destruct raw as [|? raw]; [discriminate L|]).
    destruct raw; [|discriminate L]. pose proof R as R'. range_hyps R'.
    unfold IPAddr.GetBytes, IPAddr.is_IPv4, IPAddr.words_at.
    rewrite ctor_raw_IPv4_family by assumption. cbn [fst snd].
    rewrite ctor_raw_IPv4_Host by assumption.
    apply bytes_inj. unfold IPAddr.v4_mapped_prefix.
    destruct host; cbn [app skipn firstn Nat.mul Nat.add];
      rewrite ctor_raw_IPv4_Host by assumption; reflexivity.
  - do 16 (destruct raw as [|? raw]; [discriminate L|]).
    destruct raw; [|discriminate L]. pose proof R as R'. range_hyps R'.
    apply bytes_inj. rewrite (ctor_raw_IPv6_Host host) by exact R.
    destruct host; (rewrite ctor_raw_IPv6_Host; [reflexivity|]);
      repeat (apply Forall_cons; [assumption|]); apply Forall_nil.
Qed.

Lemma ctor_raw_Host_involutive_witness :
  Forall (fun b => 0 <= b < 256) [1; 2; 3; 4] /\
  IPAddr.ctor_raw LittleEndian IPAddr.IPv4
    (IPAddr.words_at
       (IPAddr.ctor_raw LittleEndian IPAddr.IPv4 [1; 2; 3; 4] IPAddr.Host)
       (IPAddr.GetBytes
          (IPAddr.ctor_raw LittleEndian IPAddr.IPv4 [1; 2; 3; 4] IPAddr.Host)))
    IPAddr.Host
  = IPAddr.ctor_raw LittleEndian IPAddr.IPv4 [1; 2; 3; 4] IPAddr.Network.
Proof.
  assert (R : Forall (fun b => 0 <= b < 256) [1; 2; 3; 4])
    by (repeat constructor; lia).
  split; [exact R|].
  exact (proj1 (ctor_raw_Host_involutive LittleEndian [1; 2; 3; 4] R) eq_refl).
Defined.

(** ** Classification and order *)

(** X7. The three classification predicates exclude one another: no
    address is at once loopback and multicast, loopback and broadcast, or
    multicast and broadcast. *)
Theorem predicates_exclusive (a : IPAddr.t) :
  IPAddr.IsLoopback a && IPAddr.IsMulticast a = false /\
  IPAddr.IsLoopback a && IPAddr.IsBroadcast a = false /\
  IPAddr.IsMulticast a && IPAddr.IsBroadcast a = false.
Proof.
  unfold IPAddr.IsLoopback, IPAddr.IsMulticast, IPAddr.IsBroadcast.
  destruct (IPAddr.is_IPv4 a).
  - destruct (Z.eqb_spec (nth 12 (IPAddr.bytes a) 0) 127) as [E|E];
      destruct (Z.eqb_spec (nth 12 (IPAddr.bytes a) 0) 224) as [E'|E'];
      destruct (Z.eqb_spec (nth 12 (IPAddr.bytes a) 0) 255) as [E''|E''];
      cbn [andb]; repeat split; try reflexivity; lia.
  - rewrite !andb_false_r.
    destruct (Z.eqb_spec (nth 0 (IPAddr.bytes a) 0) 0) as [E|E];
      destruct (Z.eqb_spec (nth 0 (IPAddr.bytes a) 0) 255) as [E'|E'];
      cbn [andb]; repeat split; try reflexivity; try lia.
Qed.

Lemma family_IPv4_nth (a : IPAddr.t) :
  IPAddr.family a = IPAddr.IPv4 <->
  forall i, (i < 12)%nat ->
            nth i (IPAddr.bytes a) 0 = nth i IPAddr.v4_mapped_prefix 0.
Proof.
  unfold IPAddr.family. rewrite <- memcmp_eq0_iff.
  destruct (Z.eqb_spec (memcmp (IPAddr.bytes a) IPAddr.v4_mapped_prefix 12) 0);
    split; congruence.
Qed.

(** X8. The IPv4-family addresses form an interval of the order: an
    address that lies between two IPv4-family addresses is IPv4-family
    itself, so no IPv6-family address sorts among them. *)
Theorem IPv4_family_convex (a b c : IPAddr.t) :
  IPAddr.family a = IPAddr.IPv4 -> IPAddr.family c = IPAddr.IPv4 ->
  IPAddr.op_lt a b = true -> IPAddr.op_lt b c = true ->
  IPAddr.family b = IPAddr.IPv4.
Proof.
  rewrite !family_IPv4_nth. unfold IPAddr.op_lt. rewrite !Z.ltb_lt.
  rewrite !memcmp_lt0_iff.
  intros Fa Fc (i & Hi & Hab & Pab) (j & Hj & Hbc & Pbc) k Hk.
  destruct (Nat.lt_ge_cases k i) as [Lt|Ge];
    [rewrite <- (Pab k Lt); apply Fa, Hk|].
  exfalso. assert (Hi12 : (i < 12)%nat) by lia.
  pose proof (Fa i Hi12) as Ai. pose proof (Fc i Hi12) as Ci.
  destruct (Nat.lt_trichotomy j i) as [Lji|[Eji|Lij]].
  - pose proof (Pab j Lji) as E. pose proof (Fa j ltac:(lia)) as Aj.
    pose proof (Fc j ltac:(lia)) as Cj. lia.
  - subst j. lia.
  - pose proof (Pbc i Lij). lia.
Qed.

Lemma IPv4_family_convex_witness :
  IPAddr.family (IPAddr.ctor_in4 [10; 0; 0; 0]) = IPAddr.IPv4 /\
  IPAddr.family (IPAddr.ctor_in4 [10; 0; 0; 1]) = IPAddr.IPv4.
Proof.
  split; [reflexivity|].
  exact (IPv4_family_convex
           (IPAddr.ctor_in4 [10; 0; 0; 0]) (IPAddr.ctor_in4 [10; 0; 0; 1])
           (IPAddr.ctor_in4 [10; 0; 0; 2])
           eq_refl eq_refl eq_refl eq_refl).
Defined.

Lemma be_value_bound (l : list Z) :
  Forall (fun b => 0 <= b < 256) l ->
  0 <= be_value l < 256 ^ Z.of_nat (List.length l).
Proof.
  intros H. induction H as [|b l Hb Hl IH]; [cbn; lia|].
  cbn [be_value List.length]. rewrite Nat2Z.inj_succ, Z.pow_succ_r by lia.
  nia.
Qed.

(** [memcmp] over whole arrays of bytes is the comparison of the integers
    they write in network order. *)
Lemma memcmp_be_value (l1 l2 : list Z) :
  List.length l1 = List.length l2 ->
  Forall (fun b => 0 <= b < 256) l1 -> Forall (fun b => 0 <= b < 256) l2 ->
  (memcmp l1 l2 (List.length l1) < 0 <-> be_value l1 < be_value l2) /\
  (memcmp l1 l2 (List.length l1) = 0 <-> be_value l1 = be_value l2).
Proof.
  revert l2; induction l1 as [|x l1 IH]; intros l2 L R1 R2.
  - destruct l2; [|discriminate L]. cbn. lia.
  - destruct l2 as [|y l2]; [discriminate L|].
    cbn [List.length] in L. injection L as L.
    pose proof (Forall_inv R1) as Rx. pose proof (Forall_inv R2) as Ry.
    pose proof (be_value_bound l1 (Forall_inv_tail R1)) as B1.
    pose proof (be_value_bound l2 (Forall_inv_tail R2)) as B2.
    specialize (IH l2 L (Forall_inv_tail R1) (Forall_inv_tail R2)).
    cbn [memcmp hd tl be_value List.length]. rewrite <- L in *.
    set (K := 256 ^ Z.of_nat (List.length l1)) in *.
    cbv beta in Rx, Ry.
    destruct (Z.ltb_spec x y) as [Hxy|Hxy].
    + split; split; intros; try lia; nia.
    + destruct (Z.ltb_spec y x) as [Hyx|Hyx].
      * split; split; intros; try lia; nia.
      * assert (x = y) by lia. subst y. destruct IH as [IH1 IH2].
        rewrite IH1, IH2. lia.
Qed.

(** X9. The order on addresses is the numeric order of the 128-bit
    integers that the sixteen bytes write in network order, and equality
    is equality of these integers; among IPv4-family addresses it is the
    numeric order of the embedded 32-bit addresses. *)
Theorem op_lt_numeric (a b : IPAddr.t) :
  IPAddr.wf a = true -> IPAddr.wf b = true ->
  (IPAddr.op_lt a b = true
   <-> be_value (IPAddr.bytes a) < be_value (IPAddr.bytes b)) /\
  (IPAddr.op_eq a b = true
   <-> be_value (IPAddr.bytes a) = be_value (IPAddr.bytes b)) /\
  (IPAddr.family a = IPAddr.IPv4 -> IPAddr.family b = IPAddr.IPv4 ->
   (IPAddr.op_lt a b = true
    <-> be_value (skipn 12 (IPAddr.bytes a))
        < be_value (skipn 12 (IPAddr.bytes b)))).
Proof.
  intros Wa Wb.
  pose proof (wf_length a Wa) as La. pose proof (wf_length b Wb) as Lb.
  destruct (memcmp_be_value (IPAddr.bytes a) (IPAddr.bytes b)
              ltac:(congruence) (wf_range a Wa) (wf_range b Wb)) as [Hlt Heq].
  rewrite La in Hlt, Heq. unfold IPAddr.op_lt, IPAddr.op_eq.
  rewrite Z.ltb_lt, Z.eqb_eq. split; [exact Hlt|]. split; [exact Heq|].
  intros Fa Fb. rewrite Hlt.
  apply (family_IPv4_iff a Wa) in Fa. apply (family_IPv4_iff b Wb) in Fb.
  clear Hlt Heq La Lb.
  explode a Wa. explode b Wb. cbn [firstn skipn] in *.
  unfold IPAddr.v4_mapped_prefix in Fa, Fb.
  injection Fa as -> -> -> -> -> -> -> -> -> -> -> ->.
  injection Fb as -> -> -> -> -> -> -> -> -> -> -> ->.
  cbn [be_value List.length]. lia.
Qed.

Lemma op_lt_numeric_witness :
  IPAddr.wf (IPAddr.ctor_in4 [9; 255; 255; 255]) = true /\
  IPAddr.wf (IPAddr.ctor_in4 [10; 0; 0; 0]) = true /\
  IPAddr.op_lt (IPAddr.ctor_in4 [9; 255; 255; 255])
               (IPAddr.ctor_in4 [10; 0; 0; 0]) = true.
Proof.
  split; [reflexivity|]. split; [reflexivity|].
  apply (proj2 (proj2 (proj2 (op_lt_numeric
                  (IPAddr.ctor_in4 [9; 255; 255; 255])
                  (IPAddr.ctor_in4 [10; 0; 0; 0]) eq_refl eq_refl))
           eq_refl eq_refl)).
  vm_compute. reflexivity.
Defined.

(** X10. [operator!=] agrees with the order: two addresses are unequal
    exactly when one of them is less than the other. *)
Theorem op_ne_iff_lt (a b : IPAddr.t) :
  IPAddr.op_ne a b = IPAddr.op_lt a b || IPAddr.op_lt b a.
Proof.
  unfold IPAddr.op_ne, IPAddr.op_eq, IPAddr.op_lt.
  rewrite (memcmp_antisym (IPAddr.bytes a) (IPAddr.bytes b)).
  destruct (memcmp_range (IPAddr.bytes a) (IPAddr.bytes b) 16) as [E|[E|E]];
    rewrite E; reflexivity.
Qed.

(** X11. The default-constructed address is IPv6-family and is the least
    address: no well-formed address is less than it. *)
Theorem ctor_default_least (a : IPAddr.t) :
  IPAddr.wf a = true ->
  IPAddr.op_lt a IPAddr.ctor_default = false /\
  (IPAddr.op_eq a IPAddr.ctor_default = false ->
   IPAddr.op_lt IPAddr.ctor_default a = true) /\
  IPAddr.family IPAddr.ctor_default = IPAddr.IPv6.
Proof.
  intros Wa. pose proof (wf_range a Wa) as R.
  assert (N : IPAddr.op_lt a IPAddr.ctor_default = false).
  { apply not_true_is_false. unfold IPAddr.op_lt.
    rewrite Z.ltb_lt, memcmp_lt0_iff. intros (i & Hi & Hlt & _).
    rewrite Forall_forall in R.
    assert (Z0 : nth i (IPAddr.bytes IPAddr.ctor_default) 0 = 0).
    { do 16 (destruct i as [|i]; [reflexivity|]). lia. }
    rewrite Z0 in Hlt.
    specialize (R (nth i (IPAddr.bytes a) 0)
                  (nth_In _ _ ltac:(rewrite (wf_length a Wa); exact Hi))).
    lia. }
  split; [exact N|]. split; [|reflexivity].
  revert N. unfold IPAddr.op_eq, IPAddr.op_lt.
  rewrite (memcmp_antisym (IPAddr.bytes a) (IPAddr.bytes IPAddr.ctor_default)).
  destruct (memcmp_range (IPAddr.bytes a) (IPAddr.bytes IPAddr.ctor_default) 16)
    as [E|[E|E]]; rewrite E; cbn; congruence.
Qed.

Lemma ctor_default_least_witness :
  IPAddr.wf (IPAddr.of_bytes IPAddr.loopback6) = true /\
  IPAddr.op_lt (IPAddr.of_bytes IPAddr.loopback6) IPAddr.ctor_default = false.
Proof.
  split; [reflexivity|].
  exact (proj1 (ctor_default_least (IPAddr.of_bytes IPAddr.loopback6) eq_refl)).
Defined.

(** ** Prefixes *)

Lemma memcmp_eq_l (s1 s2 s3 : list Z) (n : nat) :
  memcmp s1 s2 n = 0 -> memcmp s1 s3 n = memcmp s2 s3 n.
Proof.
  revert s1 s2 s3; induction n as [|n IH]; intros s1 s2 s3; simpl;
    [reflexivity|].
  destruct (Z.ltb_spec (hd 0 s1) (hd 0 s2)); [discriminate|].
  destruct (Z.ltb_spec (hd 0 s2) (hd 0 s1)); [discriminate|].
  intros E. replace (hd 0 s2) with (hd 0 s1) by lia.
  rewrite (IH _ _ (tl s3) E). reflexivity.
Qed.

Lemma memcmp_eq_r (s1 s2 s3 : list Z) (n : nat) :
  memcmp s2 s3 n = 0 -> memcmp s1 s2 n = memcmp s1 s3 n.
Proof.
  intros E. rewrite (memcmp_antisym s2 s1), (memcmp_antisym s3 s1).
  f_equal. apply memcmp_eq_l, E.
Qed.

(** X12. [operator<] and [operator==] on prefixes form a strict total
    order on the pairs (address, [Length()]): exactly one of [p < q],
    [p == q], [q < p] holds, [<] is transitive, and [p < q] never puts
    the address of [q] before the address of [p]. *)
Theorem prefix_order_total (p q r : IPPrefix.t) :
  ((IPPrefix.op_lt p q = true /\ IPPrefix.op_eq p q = false
    /\ IPPrefix.op_lt q p = false) \/
   (IPPrefix.op_lt p q = false /\ IPPrefix.op_eq p q = true
    /\ IPPrefix.op_lt q p = false) \/
   (IPPrefix.op_lt p q = false /\ IPPrefix.op_eq p q = false
    /\ IPPrefix.op_lt q p = true)) /\
  (IPPrefix.op_lt p q = true -> IPPrefix.op_lt q r = true ->
   IPPrefix.op_lt p r = true) /\
  (IPPrefix.op_lt p q = true ->
   IPAddr.op_lt (IPPrefix.Prefix q) (IPPrefix.Prefix p) = false).
Proof.
  unfold IPPrefix.op_lt, IPPrefix.op_eq, IPAddr.op_lt, IPAddr.op_eq.
  set (a := IPAddr.bytes (IPPrefix.Prefix p)).
  set (b := IPAddr.bytes (IPPrefix.Prefix q)).
  set (c := IPAddr.bytes (IPPrefix.Prefix r)).
  set (lp := IPPrefix.Length p). set (lq := IPPrefix.Length q).
  set (lr := IPPrefix.Length r).
  split; [|split].
  - rewrite (memcmp_antisym a b).
    destruct (memcmp_range a b 16) as [E|[E|E]]; rewrite E; cbn; auto.
    destruct (Z.ltb_spec lp lq), (Z.eqb_spec lp lq), (Z.ltb_spec lq lp);
      try lia; auto.
  - destruct (Z.ltb_spec (memcmp a b 16) 0) as [Hab|Hab].
    + intros _. destruct (Z.ltb_spec (memcmp b c 16) 0) as [Hbc|Hbc].
      * intros _. pose proof (memcmp_trans a b c 16 Hab Hbc) as Hac.
        apply Z.ltb_lt in Hac. rewrite Hac. reflexivity.
      * destruct (Z.eqb_spec (memcmp b c 16) 0) as [Ebc|Ebc]; [|discriminate].
        intros _. rewrite <- (memcmp_eq_r a b c 16 Ebc).
        apply Z.ltb_lt in Hab. rewrite Hab. reflexivity.
    + destruct (Z.eqb_spec (memcmp a b 16) 0) as [Eab|Eab]; [|discriminate].
      intros Hl. rewrite (memcmp_eq_l a b c 16 Eab).
      destruct (Z.ltb_spec (memcmp b c 16) 0); [reflexivity|].
      destruct (Z.eqb_spec (memcmp b c 16) 0); [|discriminate].
      rewrite !Z.ltb_lt in *. lia.
  - rewrite (memcmp_antisym a b).
    destruct (memcmp_range a b 16) as [E|[E|E]]; rewrite E; cbn; auto;
      discriminate.
Qed.

(** X13. For prefixes whose addresses are well formed and whose stored
    lengths fit a byte, [operator==] holds exactly when both stored
    fields are the same: comparing the family-relative lengths loses
    nothing. *)
Theorem prefix_op_eq_fields (p q : IPPrefix.t) :
  IPAddr.wf (IPPrefix.prefix p) = true -> IPAddr.wf (IPPrefix.prefix q) = true ->
  0 <= IPPrefix.length p < 256 -> 0 <= IPPrefix.length q < 256 ->
  (IPPrefix.op_eq p q = true <-> p = q).
Proof.
  intros Wp Wq Rp Rq. unfold IPPrefix.op_eq, IPPrefix.Prefix.
  rewrite andb_true_iff, Z.eqb_eq, (op_eq_iff _ _ Wp Wq). split.
  - intros [E L]. destruct p as [a lp], q as [b lq].
    cbn [IPPrefix.prefix IPPrefix.length] in *. subst b.
    unfold IPPrefix.Length in L. cbn [IPPrefix.prefix IPPrefix.length] in L.
    f_equal. destruct (IPAddr.is_IPv4 a); Z.div_mod_to_equations; lia.
  - intros ->. split; reflexivity.
Qed.

Lemma prefix_op_eq_fields_witness :
  IPAddr.wf (IPPrefix.prefix IPPrefix.net10) = true /\
  0 <= IPPrefix.length IPPrefix.net10 < 256 /\
  IPPrefix.op_eq IPPrefix.net10 IPPrefix.net10 = true.
Proof.
  split; [reflexivity|]. split; [simpl; lia|].
  apply (proj2 (prefix_op_eq_fields IPPrefix.net10 IPPrefix.net10
                  eq_refl eq_refl ltac:(simpl; lia) ltac:(simpl; lia))).
  reflexivity.
Defined.

(** X14. [Length()] always fits a byte.  It is [LengthIPv6() - 96],
    between 0 and 32, for an IPv4-family address with stored length
    between 96 and 128, and [LengthIPv6()] itself for an IPv6-family
    address; for an IPv4-family address with a stored length below 96 the
    subtraction wraps around to [LengthIPv6() + 160]. *)
Theorem Length_scale (p : IPPrefix.t) :
  0 <= IPPrefix.LengthIPv6 p < 256 ->
  0 <= IPPrefix.Length p < 256 /\
  (IPAddr.family (IPPrefix.Prefix p) = IPAddr.IPv6 ->
   IPPrefix.Length p = IPPrefix.LengthIPv6 p) /\
  (IPAddr.family (IPPrefix.Prefix p) = IPAddr.IPv4 ->
   96 <= IPPrefix.LengthIPv6 p <= 128 ->
   IPPrefix.Length p = IPPrefix.LengthIPv6 p - 96 /\
   0 <= IPPrefix.Length p <= 32) /\
  (IPAddr.family (IPPrefix.Prefix p) = IPAddr.IPv4 ->
   IPPrefix.LengthIPv6 p < 96 ->
   IPPrefix.Length p = IPPrefix.LengthIPv6 p + 160).
Proof.
  unfold IPPrefix.Length, IPPrefix.LengthIPv6, IPPrefix.Prefix. intros R.
  split; [apply Z.mod_pos_bound; lia|].
  split; [|split].
  - intros F. apply is_IPv4_false in F. rewrite F. apply Z.mod_small, R.
  - intros F. apply is_IPv4_true in F. rewrite F. intros H.
    rewrite Z.mod_small by lia. lia.
  - intros F. apply is_IPv4_true in F. rewrite F. intros H.
    Z.div_mod_to_equations. lia.
Qed.

Lemma Length_scale_witness :
  0 <= IPPrefix.LengthIPv6 IPPrefix.net10 < 256 /\
  0 <= IPPrefix.Length IPPrefix.net10 < 256.
Proof.
  assert (R : 0 <= IPPrefix.LengthIPv6 IPPrefix.net10 < 256) by (simpl; lia).
  split; [exact R|]. exact (proj1 (Length_scale IPPrefix.net10 R)).
Defined.

(** X15. Assignment of prefixes copies its source faithfully exactly when
    the source's address is IPv6-family: for an IPv4-family source the
    result neither equals the source nor compares equal to it.  As the
    result does not depend on the assigned-to object, this includes
    self-assignment. *)
Theorem prefix_op_assign_copy_iff (q p : IPPrefix.t) :
  0 <= IPPrefix.length p < 256 ->
  (IPPrefix.op_assign q p = p
   <-> IPAddr.family (IPPrefix.prefix p) = IPAddr.IPv6) /\
  (IPPrefix.op_eq (IPPrefix.op_assign q p) p = true
   <-> IPAddr.family (IPPrefix.prefix p) = IPAddr.IPv6) /\
  IPPrefix.op_assign q p = IPPrefix.op_assign p p.
Proof.
  intros R. split; [|split]; [| |reflexivity].
  - split.
    + intros E. apply (f_equal IPPrefix.length) in E.
      unfold IPPrefix.op_assign, IPPrefix.Length in E.
      cbn [IPPrefix.length] in E.
      destruct (IPAddr.is_IPv4 (IPPrefix.prefix p)) eqn:F;
        [|apply is_IPv4_false, F].
      exfalso. revert E. Z.div_mod_to_equations. lia.
    + intros F. apply op_assign_IPv6_copy; assumption.
  - split.
    + unfold IPPrefix.op_eq. rewrite andb_true_iff, Z.eqb_eq. intros [_ E].
      unfold IPPrefix.op_assign, IPPrefix.Length, IPPrefix.Prefix,
        IPAddr.op_assign in E.
      cbn [IPPrefix.prefix IPPrefix.length] in E.
      replace (IPAddr.mk (IPAddr.in6 (IPPrefix.prefix p)))
        with (IPPrefix.prefix p) in E by (destruct (IPPrefix.prefix p); reflexivity).
      destruct (IPAddr.is_IPv4 (IPPrefix.prefix p)) eqn:F;
        [|apply is_IPv4_false, F].
      exfalso. revert E. Z.div_mod_to_equations. lia.
    + intros F. rewrite (op_assign_IPv6_copy q p F R).
      unfold IPPrefix.op_eq, IPAddr.op_eq.
      rewrite memcmp_refl, !Z.eqb_refl. reflexivity.
Qed.

Lemma prefix_op_assign_copy_iff_witness :
  0 <= IPPrefix.length IPPrefix.net10 < 256 /\
  IPPrefix.op_assign IPPrefix.net10 IPPrefix.net10 <> IPPrefix.net10.
Proof.
  assert (R : 0 <= IPPrefix.length IPPrefix.net10 < 256) by (simpl; lia).
  split; [exact R|]. intros E.
  apply (proj1 (proj1 (prefix_op_assign_copy_iff
                         IPPrefix.net10 IPPrefix.net10 R))) in E.
  discriminate E.
Defined.
